(** * harp-lines: TriangulateLines

    A shallow embedding of [@here/harp-lines/lib/TriangulateLines.ts] and the
    properties of its three components: the cap generator [addCircle], the
    line extruder [triangulateLine] and the reconstruction functions
    [reconstructLine] and [reconstructLineWidth].

    Arithmetic model.  A JavaScript [number] is embedded as a real number or
    [NaN]: the operations are the exact real ones, they propagate [NaN], and
    [undefined] (an array read out of range) becomes [NaN] as soon as it
    enters an arithmetic operation.  The rounding of the binary64
    operations, overflow and signed zeros are not modelled: an equation
    below is an equation of exact arithmetic.  The narrowing to 32 bits of a
    [Float32Array] is modelled in the section [Float32Array]; the statements
    on values that are read back through such an array bound the distance to
    the original, with a tolerance wide enough for the rounding of the
    binary64 operations as well. *)

From Stdlib Require Import Reals Lra Lia ZArith.
From stdpp Require Import base list.

(** ** JavaScript numbers *)

Module Js.

Inductive number : Type :=
| Num (r : R)
| NaN.

Definition lift1 (f : R -> R) (a : number) : number :=
  match a with
  | Num x => Num (f x)
  | NaN => NaN
  end.

Definition lift2 (f : R -> R -> R) (a b : number) : number :=
  match a, b with
  | Num x, Num y => Num (f x y)
  | _, _ => NaN
  end.

Definition add : number -> number -> number := lift2 Rplus.
Definition sub : number -> number -> number := lift2 Rminus.
Definition mul : number -> number -> number := lift2 Rmult.
Definition neg : number -> number := lift1 Ropp.

(** [a / b].  A quotient by zero is an infinity or [NaN] in IEEE arithmetic;
    it is collapsed to [NaN] here.  No call site of this file divides by
    zero. *)
Definition div (a b : number) : number :=
  match a, b with
  | Num x, Num y => if Req_dec_T y 0 then NaN else Num (x / y)
  | _, _ => NaN
  end.

(** [a < b]: false as soon as one side is [NaN]. *)
Definition lt (a b : number) : bool :=
  match a, b with
  | Num x, Num y => if Rlt_dec x y then true else false
  | _, _ => false
  end.

(** [a || b] on numbers: [0] and [NaN] are falsy. *)
Definition or (a b : number) : number :=
  match a with
  | Num x => if Req_dec_T x 0 then b else a
  | NaN => b
  end.

Definition of_nat (n : nat) : number := Num (INR n).

Definition PI : number := Num Rtrigo1.PI.

Definition sqrt (a : number) : number :=
  match a with
  | Num x => if Rlt_dec x 0 then NaN else Num (R_sqrt.sqrt x)
  | NaN => NaN
  end.

Definition cos : number -> number := lift1 Rtrigo_def.cos.
Definition sin : number -> number := lift1 Rtrigo_def.sin.

(** [Math.atan2] on real arguments, with its value in (-PI, PI]. *)
Definition atan2R (y x : R) : R :=
  match total_order_T x 0 with
  | inleft (left _) =>
      if Rlt_dec y 0 then atan (y / x) - Rtrigo1.PI else atan (y / x) + Rtrigo1.PI
  | inleft (right _) =>
      match total_order_T y 0 with
      | inleft (left _) => - (Rtrigo1.PI / 2)
      | inleft (right _) => 0
      | inright _ => Rtrigo1.PI / 2
      end
  | inright _ => atan (y / x)
  end%R.

Definition atan2 : number -> number -> number := lift2 atan2R.

(** [a[i]]: the element, or [undefined], which every use in this file
    feeds to arithmetic, where it is [NaN]. *)
Definition get (a : list number) (i : nat) : number :=
  default NaN (a !! i).

(** [a[k]] for an index that is itself a number: the element when [k] is one
    of the array's indices [0 .. length - 1], otherwise [undefined]. *)
Definition getN (a : list number) (k : number) : number :=
  match k with
  | Num r =>
      match find (fun i => if Req_dec_T (INR i) r then true else false)
                 (seq 0 (length a)) with
      | Some i => get a i
      | None => NaN
      end
  | NaN => NaN
  end.

End Js.

Import Js.

Declare Scope num_scope.
Delimit Scope num_scope with num.
Bind Scope num_scope with number.
Infix "+" := add : num_scope.
Infix "-" := sub : num_scope.
Infix "*" := mul : num_scope.
Infix "/" := div : num_scope.
Notation "- a" := (neg a) : num_scope.
Notation "0" := (Num 0%R) : num_scope.
Notation "1" := (Num 1%R) : num_scope.
Notation "2" := (Num 2%R) : num_scope.
Notation "3" := (Num 3%R) : num_scope.
Notation "0.5" := (Num (1 / 2)%R) : num_scope.

(** ** The vector capability of three.js

    The methods of [THREE.Vector3] and [THREE.Vector2] that the file calls.
    They update [this] and return it; a chain of calls is embedded as the
    composition of the functions below. *)

Module THREE.

Record Vector3 : Type := mkVector3 { x : number; y : number; z : number }.
Record Vector2 : Type := mkVector2 { x2 : number; y2 : number }.

Local Open Scope num_scope.

(** [new THREE.Vector3()] *)
Definition zero3 : Vector3 := mkVector3 0 0 0.

Definition add3 (a b : Vector3) : Vector3 :=
  mkVector3 (x a + x b) (y a + y b) (z a + z b).

Definition sub3 (a b : Vector3) : Vector3 :=
  mkVector3 (x a - x b) (y a - y b) (z a - z b).

Definition multiplyScalar (a : Vector3) (s : number) : Vector3 :=
  mkVector3 (x a * s) (y a * s) (z a * s).

Definition divideScalar (a : Vector3) (s : number) : Vector3 :=
  multiplyScalar a (1 / s).

Definition dot (a b : Vector3) : number :=
  x a * x b + y a * y b + z a * z b.

Definition length3 (a : Vector3) : number :=
  sqrt (x a * x a + y a * y a + z a * z a).

(** [normalize]: [this.divideScalar(this.length() || 1)]. *)
Definition normalize (a : Vector3) : Vector3 :=
  divideScalar a (or (length3 a) 1).

Definition cross (a b : Vector3) : Vector3 :=
  mkVector3 (y a * z b - z a * y b)
            (z a * x b - x a * z b)
            (x a * y b - y a * x b).

(** [Vector2.angle]: the angle to the positive X axis, in [0, 2 PI). *)
Definition angle (v : Vector2) : number :=
  let a := atan2 (y2 v) (x2 v) in
  if lt a 0 then a + 2 * PI else a.

(** The three components, in the order they are pushed. *)
Definition coords (a : Vector3) : list number := [x a; y a; z a].

End THREE.

Import THREE.

(** ** TriangulateLines.ts *)

Section TriangulateLines.

Local Open Scope num_scope.

Definition UNIT_Z : Vector3 := mkVector3 0 0 1.
Definition POINTS : list nat := [0; 1; 2; 1; 3; 2]%nat.

Definition SECTORS_IN_CIRCLE : nat := 8.
Definition STEP : number := PI / of_nat SECTORS_IN_CIRCLE.

(** The two caller-owned, growable arrays.  They and the array of points are
    taken to be three distinct objects. *)
Record Buffers : Type := mkBuffers {
  vertices : list number;
  indices : list number
}.

(** One iteration of the loop of [addCircle]. *)
Definition addCircleStep (cx cy lineAngle radius baseVertex : number)
    (b : Buffers) (i : nat) : Buffers :=
  let angle := STEP * of_nat i + PI / 2 + lineAngle in
  mkBuffers
    (vertices b ++ [cx + radius * cos angle; cy + radius * sin angle; 0])
    (indices b ++
       [baseVertex;
        baseVertex + of_nat i + 1;
        baseVertex + of_nat ((i + 1) mod (SECTORS_IN_CIRCLE + 1)) + 1]).

Definition addCircle (cx cy lineAngle radius : number) (b : Buffers)
    : Buffers :=
  let baseVertex := of_nat (length (vertices b)) / 3 in
  let b1 := mkBuffers (vertices b ++ [cx; cy; 0]) (indices b) in
  fold_left (addCircleStep cx cy lineAngle radius baseVertex)
            (seq 0 (SECTORS_IN_CIRCLE + 1)) b1.

Definition numCirclePoints (lineWidth : number) : nat :=
  SECTORS_IN_CIRCLE + 1.

(** [lineAngle] of the start cap. *)
Definition startLineAngle (points : list number) : number :=
  if negb (length points =? 2)%nat
  then angle (mkVector2 (get points 2 - get points 0)
                        (get points 3 - get points 1))
  else 0.

(** [lineAngle] of the end cap; [N] is [points.length / 2]. *)
Definition endLineAngle (points : list number) (N : number) : number :=
  if negb (length points =? 2)%nat
  then angle (mkVector2
                (getN points ((N - 2) * 2) - getN points ((N - 1) * 2))
                (getN points ((N - 2) * 2 + 1) - getN points ((N - 1) * 2 + 1)))
  else PI.

(** The body of the first loop at index [i]: the value [prevDir] has after
    the iteration, and the six numbers the iteration pushes. *)
Definition strokeStep (points : list number) (width N : number) (i : nat)
    (prevDir : Vector3) : Vector3 * list number :=
  let p := mkVector3 (get points (i * 2)) (get points (i * 2 + 1)) 0 in
  if lt (of_nat (i + 1)) N then
    let n := mkVector3 (get points ((i + 1) * 2))
                       (get points ((i + 1) * 2 + 1)) 0 in
    let dir := cross (normalize (sub3 n p)) UNIT_Z in
    let aver :=
      if (0 <? i)%nat
      then multiplyScalar (add3 dir prevDir) (1 - 0.5 * dot dir prevDir)
      else dir in
    let p0 := add3 (multiplyScalar aver (- width)) p in
    let p1 := add3 (multiplyScalar aver width) p in
    (dir, coords p0 ++ coords p1)
  else
    let p0 := add3 (multiplyScalar prevDir (- width)) p in
    let p1 := add3 (multiplyScalar prevDir width) p in
    (prevDir, coords p0 ++ coords p1).

(** [for (let i = 0; i < N; ++i) { ... }], started at [i]. *)
Fixpoint strokeLoop (fuel : nat) (points : list number) (width N : number)
    (i : nat) (prevDir : Vector3) (vs : list number) : list number :=
  match fuel with
  | O => vs
  | S fuel' =>
      if lt (of_nat i) N then
        let '(prevDir', pushed) := strokeStep points width N i prevDir in
        strokeLoop fuel' points width N (S i) prevDir' (vs ++ pushed)
      else vs
  end.

(** [for (let i = 0; i < N - 1; ++i) POINTS.forEach(...)], started at [i]. *)
Fixpoint indexLoop (fuel : nat) (N baseVertex : number) (i : nat)
    (ixs : list number) : list number :=
  match fuel with
  | O => ixs
  | S fuel' =>
      if lt (of_nat i) (N - 1) then
        indexLoop fuel' N baseVertex (S i)
          (ixs ++ map (fun o => baseVertex + of_nat i * 2 + of_nat o) POINTS)
      else ixs
  end.

(** Both loops run fewer than [points.length] + 1 times, which is the fuel
    they are given. *)
Definition triangulateLine (points : list number) (width : number)
    (b : Buffers) (startWithCircle endWithCircle : bool) : Buffers :=
  if (length points <? 2)%nat then b else
  let b1 :=
    if startWithCircle
    then addCircle (get points 0) (get points 1) (startLineAngle points)
                   width b
    else b in
  let baseVertex := of_nat (length (vertices b1)) / 3 in
  let N := of_nat (length points) / 2 in
  let vs := strokeLoop (length points) points width N 0 zero3 (vertices b1) in
  let ixs := indexLoop (length points) N baseVertex 0 (indices b1) in
  let b2 := mkBuffers vs ixs in
  if endWithCircle
  then addCircle (getN points ((N - 1) * 2)) (getN points ((N - 1) * 2 + 1))
                 (endLineAngle points N) width b2
  else b2.

(** The default values of the two flags: [startWithCircle = true] and
    [endWithCircle = startWithCircle]. *)
Definition triangulateLineDefault (points : list number) (width : number)
    (b : Buffers) (startWithCircle endWithCircle : option bool) : Buffers :=
  let s := default true startWithCircle in
  triangulateLine points width b s (default s endWithCircle).

(** The three assignments of one iteration of [reconstructLine]; a write
    past the end of a typed array is dropped. *)
Definition reconstructStep (inBuffer outBuffer : list number) (i i2 : nat)
    : list number :=
  let mid (j : nat) :=
    get inBuffer (i2 + j) +
    (get inBuffer (i2 + 3 + j) - get inBuffer (i2 + j)) * 0.5 in
  <[(i + 2)%nat := mid 2%nat]>
    (<[(i + 1)%nat := mid 1%nat]> (<[i := mid 0%nat]> outBuffer)).

Fixpoint reconstructLoop (fuel : nat) (inBuffer outBuffer : list number)
    (i i2 : nat) : list number :=
  match fuel with
  | O => outBuffer
  | S fuel' =>
      if (i <? length outBuffer)%nat then
        reconstructLoop fuel' inBuffer (reconstructStep inBuffer outBuffer i i2)
                        (i + 3) (i2 + 6)
      else outBuffer
  end.

(** [new Float32Array(inBuffer.length / 2)] is zero-filled and has the
    integer part of the quotient as its length.  [startOffset] is taken to be
    a natural number; the loop is given one unit of fuel per slot of the
    output, and it advances by three slots at a time. *)
Definition reconstructLine (inBuffer : list number) (startOffset : nat)
    : list number :=
  let outBuffer := replicate (length inBuffer / 2)%nat (Num 0) in
  reconstructLoop (length outBuffer) inBuffer outBuffer
                  (startOffset * 3) (startOffset * 3 * 2).

(** [startIndex] is taken to be a natural number. *)
Definition reconstructLineWidth (inBuffer : list number) (startIndex : nat)
    : number :=
  let xd := get inBuffer (startIndex * 2 + 3) - get inBuffer (startIndex * 2) in
  let yd := get inBuffer (startIndex * 2 + 3 + 1)
            - get inBuffer (startIndex * 2 + 1) in
  let zd := get inBuffer (startIndex * 2 + 3 + 2)
            - get inBuffer (startIndex * 2 + 2) in
  sqrt (xd * xd + yd * yd + zd * zd) * 0.5.

End TriangulateLines.

(** ** Closed forms used by the statements *)

Section CapClosedForm.

Variables cx cy lineAngle radius : R.
Variable nv : nat.

(** The angle, the rim vertex and the fan triangle of sector [i] in exact
    arithmetic, for a cap appended to a buffer that holds [nv] vertices. *)
Definition rimAngle (i : nat) : R :=
  (Rtrigo1.PI / 8 * INR i + Rtrigo1.PI / 2 + lineAngle)%R.

Definition rimVertex (i : nat) : list number :=
  [Num (cx + radius * Rtrigo_def.cos (rimAngle i));
   Num (cy + radius * Rtrigo_def.sin (rimAngle i));
   Num 0].

Definition fanTriangle (i : nat) : list number :=
  [of_nat nv; of_nat (nv + i + 1); of_nat (nv + (i + 1) mod 9 + 1)].

End CapClosedForm.

Definition emptyBuffers : Buffers := mkBuffers [] [].

Section StrokeClosedForm.

Variable points : list number.
Variable width : number.

Local Open Scope num_scope.

(** Point [i] of the polyline, as the loop reads it into [p]. *)
Definition pointAt (i : nat) : Vector3 :=
  mkVector3 (get points (i * 2)) (get points (i * 2 + 1)) 0.

(** [dir] of the segment from point [i] to point [i + 1]. *)
Definition segmentDir (i : nat) : Vector3 :=
  cross (normalize (sub3 (pointAt (i + 1)) (pointAt i))) UNIT_Z.

(** [prevDir] at the start of iteration [i]. *)
Definition prevDirAt (i : nat) : Vector3 :=
  match i with
  | O => zero3
  | S j => segmentDir j
  end.

(** [aver] at a point [i] that has a successor. *)
Definition averagedDir (i : nat) : Vector3 :=
  match i with
  | O => segmentDir 0
  | S j =>
      multiplyScalar (add3 (segmentDir i) (segmentDir j))
                     (1 - 0.5 * dot (segmentDir i) (segmentDir j))
  end.

(** The direction along which point [i] is offset. *)
Definition offsetDir (i : nat) : Vector3 :=
  if (2 * (i + 1) <? length points)%nat then averagedDir i else prevDirAt i.

(** The two vertices of point [i]: the [- width] one first. *)
Definition offsetPair (i : nat) : list number :=
  coords (add3 (multiplyScalar (offsetDir i) (- width)) (pointAt i)) ++
  coords (add3 (multiplyScalar (offsetDir i) width) (pointAt i)).

(** The two triangles of segment [i], over a stroke whose first vertex has
    index [baseVertex]. *)
Definition segmentTriangles (baseVertex : number) (i : nat) : list number :=
  map (fun o => baseVertex + of_nat i * 2 + of_nat o) POINTS.

End StrokeClosedForm.

(** ** Polylines over the reals *)

(** A polyline given by its points, and the flat [[x0, y0, x1, y1, ...]]
    sequence that [triangulateLine] takes. *)
Definition flatten (pts : list (R * R)) : list number :=
  flat_map (fun p => [Num p.1; Num p.2]) pts.

Definition nthPoint (pts : list (R * R)) (i : nat) : R * R :=
  nth i pts (0, 0)%R.

Definition vecR (a b c : R) : Vector3 := mkVector3 (Num a) (Num b) (Num c).

(** [this.length() || 1] of the vector [(a, b, c)]. *)
Definition lengthOr1 (a b c : R) : R :=
  let l := R_sqrt.sqrt (a * a + b * b + c * c) in
  if Req_dec_T l 0 then 1%R else l.

(** [dir] of the segment from [p] to [q]: the unit vector along the segment,
    turned clockwise by a quarter turn. *)
Definition segmentDirR (p q : R * R) : R * R :=
  let dx := (q.1 - p.1)%R in
  let dy := (q.2 - p.2)%R in
  let s := lengthOr1 dx dy 0 in
  (dy / s, - dx / s)%R.

(** The left-hand perpendicular of a direction, in the words of the
    specification: the direction turned counterclockwise by a quarter turn
    about the Z axis. *)
Definition leftPerpendicular (u : Vector3) : Vector3 :=
  mkVector3 (neg (y u)) (x u) (Num 0).

(** ** Midpoints *)

(** Component [c] of the midpoint of the input vertices [2 * k] and
    [2 * k + 1], which start at the flat offsets [6 * k] and [6 * k + 3]. *)
Definition midpoint (inBuffer : list number) (k c : nat) : number :=
  add (get inBuffer (6 * k + c))
      (mul (sub (get inBuffer (6 * k + 3 + c)) (get inBuffer (6 * k + c)))
           (Num (1 / 2))).

(** A point as the three numbers of a vertex in the plane [z = 0]. *)
Definition vertexOf (p : R * R) : list number := [Num p.1; Num p.2; Num 0].

(** ** The scenario of a straight line from (0, 0) to (10, 0) *)

Definition scenarioPoints : list number := [Num 0; Num 0; Num 10; Num 0].

(** What the extrusion of the scenario leaves in the two buffers. *)
Definition scenarioBuffers : Buffers :=
  mkBuffers
    [Num 0; Num 2; Num 0;  Num 0; Num (-2); Num 0;
     Num 10; Num 2; Num 0;  Num 10; Num (-2); Num 0]
    [Num 0; Num 1; Num 2; Num 1; Num 3; Num 2].

(** The buffers that the scenario of the specification announces. *)
Definition scenarioBuffersSpec : Buffers :=
  mkBuffers
    [Num 0; Num (-2); Num 0;  Num 0; Num 2; Num 0;
     Num 10; Num (-2); Num 0;  Num 10; Num 2; Num 0]
    [Num 0; Num 1; Num 2; Num 1; Num 3; Num 2].

(** ** A line with a start cap *)


(** ** A vertical line of two points *)

Definition verticalPoints : list number := [Num 0; Num 0; Num 0; Num 10].

(** ** A polyline with two right-angle bends *)



(** ** Caps over arbitrary numbers *)

Section CapNumbers.

Variables cx cy lineAngle radius baseVertex : number.

Local Open Scope num_scope.

(** The three numbers of rim vertex [i] and the three indices of fan
    triangle [i], as one iteration of [addCircle] pushes them. *)
Definition capRim (i : nat) : list number :=
  let angle := STEP * of_nat i + PI / 2 + lineAngle in
  [cx + radius * cos angle; cy + radius * sin angle; 0].

Definition capTriangle (i : nat) : list number :=
  [baseVertex;
   baseVertex + of_nat i + 1;
   baseVertex + of_nat ((i + 1) mod (SECTORS_IN_CIRCLE + 1)) + 1].

End CapNumbers.

(** ** Well-formed buffers *)

(** The vertex buffer holds [nv] whole vertices and every index names one of
    them. *)
Definition wellFormed (nv : nat) (b : Buffers) : Prop :=
  length (vertices b) = (3 * nv)%nat /\
  Forall (fun k => exists j : nat, k = of_nat j /\ (j < nv)%nat) (indices b).

(** The number of vertices a call of [triangulateLine] appends. *)
Definition verticesAdded (points : list number)
    (startWithCircle endWithCircle : bool) : nat :=
  if (length points <? 2)%nat then 0%nat
  else ((if startWithCircle then 10 else 0) +
        2 * ((length points + 1) / 2) +
        (if endWithCircle then 10 else 0))%nat.

(** The number of triangles a call of [triangulateLine] appends. *)
Definition trianglesAdded (points : list number)
    (startWithCircle endWithCircle : bool) : nat :=
  if (length points <? 2)%nat then 0%nat
  else ((if startWithCircle then 9 else 0) +
        2 * ((length points - 1) / 2) +
        (if endWithCircle then 9 else 0))%nat.

(** The six corners of the two triangles of segment [i], over a stroke whose
    first vertex has index [nv]: the vertices [2 * i] and [2 * i + 1] belong
    to point [i], the vertices [2 * i + 2] and [2 * i + 3] to point
    [i + 1]. *)
Definition quadIndices (nv i : nat) : list number :=
  map of_nat [nv + 2 * i; nv + 2 * i + 1; nv + 2 * i + 2;
              nv + 2 * i + 1; nv + 2 * i + 3; nv + 2 * i + 2]%nat.

(** A list of vertices that all lie in the plane [z = 0]. *)
Definition planar (l : list number) : Prop :=
  exists added : list (number * number),
    l = flat_map (fun p => [p.1; p.2; Num 0]) added.

(** ** Translations *)

(** The polyline moved by [(tx, ty)], and the two vertices of a point moved
    by [(tx, ty, 0)]. *)
Definition translate (tx ty : R) (pts : list (R * R)) : list (R * R) :=
  map (fun p => (p.1 + tx, p.2 + ty)%R) pts.

Definition translatePair (tx ty : R) (pair : list number) : list number :=
  zip_with add pair [Num tx; Num ty; Num 0; Num tx; Num ty; Num 0].

(** ** Float32Array

    The reconstruction functions take a [Float32Array], and [reconstructLine]
    returns one: a number stored into such an array is narrowed to the
    nearest binary32 number.  [fround] stands for that narrowing
    ([Math.fround]) on the reals; it is a parameter of the definitions, and
    the statements assume of it what [roundsToNearest32] says.  A value
    beyond the binary32 range, which the source narrows to an infinity, is
    kept out of the statements by their range conditions. *)

Section Float32Array.

Variable fround : R -> R.

Local Open Scope num_scope.

Definition narrow (a : number) : number :=
  match a with
  | Num r => Num (fround r)
  | NaN => NaN
  end.

(** [new Float32Array(values)] *)
Definition toFloat32Array (values : list number) : list number :=
  narrow <$> values.

(** [reconstructLine] with the narrowing of each store into [outBuffer]. *)
Definition reconstructStep32 (inBuffer outBuffer : list number) (i i2 : nat)
    : list number :=
  let mid (j : nat) :=
    get inBuffer (i2 + j) +
    (get inBuffer (i2 + 3 + j) - get inBuffer (i2 + j)) * 0.5 in
  <[(i + 2)%nat := narrow (mid 2%nat)]>
    (<[(i + 1)%nat := narrow (mid 1%nat)]>
       (<[i := narrow (mid 0%nat)]> outBuffer)).

Fixpoint reconstructLoop32 (fuel : nat) (inBuffer outBuffer : list number)
    (i i2 : nat) : list number :=
  match fuel with
  | O => outBuffer
  | S fuel' =>
      if (i <? length outBuffer)%nat then
        reconstructLoop32 fuel' inBuffer
                          (reconstructStep32 inBuffer outBuffer i i2)
                          (i + 3) (i2 + 6)
      else outBuffer
  end.

Definition reconstructLine32 (inBuffer : list number) (startOffset : nat)
    : list number :=
  let outBuffer := replicate (length inBuffer / 2)%nat (Num 0) in
  reconstructLoop32 (length outBuffer) inBuffer outBuffer
                    (startOffset * 3) (startOffset * 3 * 2).

End Float32Array.

(** What the statements assume of the narrowing: it keeps zero, and on the
    binary32 range it moves a number by at most half a unit in the last
    place, that is by at most [|y| / 2^24], or by [2^-150] where the binary32
    numbers are evenly spaced. *)
Definition roundsToNearest32 (fround : R -> R) : Prop :=
  fround 0%R = 0%R /\
  forall y : R, (Rabs y <= 2 ^ 127)%R ->
    (Rabs (fround y - y) <= Rabs y / 2 ^ 24 + / 2 ^ 150)%R.

(** A narrowing that agrees with the rounding to the nearest binary32 number
    on every value that the run on [tiePoints] stores: 16777217 lies halfway
    between the binary32 numbers 16777216 and 16777218 and goes to the one
    with the even significand, and 0, 1, -1, 16777216 and 16777218 are
    binary32 numbers. *)
Definition froundTie (y : R) : R :=
  if Req_dec_T y 16777217 then 16777216%R else y.

Definition tiePoints : list (R * R) := [(16777217, 0); (16777218, 0)]%R.

(** A segment whose longer side is at least [2^-500], so that the square of
    its length is far from the underflow threshold of binary64. *)
Definition longEnough (p q : R * R) : Prop :=
  (/ 2 ^ 500 <= Rabs (q.1 - p.1) \/ / 2 ^ 500 <= Rabs (q.2 - p.2))%R.



(** The bound on a coordinate [c] of a point read back from the narrowed
    vertices of a line of width [w]: two narrowings of numbers of magnitude
    at most [|c| + 4 |w|], with a factor of two to spare for the rounding of
    the binary64 operations. *)
Definition pointTolerance32 (w c : R) : R :=
  ((Rabs c + 4 * Rabs w) / 2 ^ 22 + / 2 ^ 148)%R.

(** The bound on the width read back at the pair of the point [p]. *)
Definition widthTolerance32 (w : R) (p : R * R) : R :=
  ((Rabs p.1 + Rabs p.2 + 8 * Rabs w) / 2 ^ 23 + / 2 ^ 148)%R.

(** A point whose two offset vertices stay far inside the binary32 range. *)
Definition inRange32 (w : R) (p : R * R) : Prop :=
  (Rabs p.1 + 4 * Rabs w <= 2 ^ 125 /\ Rabs p.2 + 4 * Rabs w <= 2 ^ 125)%R.

(** A polyline each of whose segments is [longEnough]. *)
Definition segmentsLongEnough (pts : list (R * R)) : Prop :=
  forall i : nat, (i + 1 < length pts)%nat ->
    longEnough (nthPoint pts i) (nthPoint pts (i + 1)).

(** ** Arithmetic of the embedded numbers *)

Section NumberFacts.

Local Open Scope R_scope.

Lemma div_Num (a b : R) : b <> 0 -> div (Num a) (Num b) = Num (a / b).
Proof.
  intros Hb. unfold div. destruct (Req_dec_T b 0) as [E | _]; [contradiction | reflexivity].
Qed.

Lemma lt_Num_true (a b : R) : a < b -> lt (Num a) (Num b) = true.
Proof.
  intros H. unfold lt. destruct (Rlt_dec a b); [reflexivity | contradiction].
Qed.

Lemma lt_Num_false (a b : R) : ~ a < b -> lt (Num a) (Num b) = false.
Proof.
  intros H. unfold lt. destruct (Rlt_dec a b); [contradiction | reflexivity].
Qed.

Lemma sqrt_Num (a : R) : 0 <= a -> Js.sqrt (Num a) = Num (R_sqrt.sqrt a).
Proof.
  intros H. unfold Js.sqrt. destruct (Rlt_dec a 0); [lra | reflexivity].
Qed.

(** The quotients the source takes of array lengths. *)
Lemma of_nat_div3 (n : nat) : div (of_nat (3 * n)) (Num 3) = of_nat n.
Proof.
  unfold of_nat. rewrite div_Num by lra. f_equal.
  rewrite mult_INR. simpl. field.
Qed.

(** [i < points.length / 2], on the loop counter. *)
Lemma lt_half (i len : nat) :
  lt (of_nat i) (div (of_nat len) (Num 2)) = (2 * i <? len)%nat.
Proof.
  unfold of_nat. rewrite div_Num by lra.
  destruct (Nat.ltb_spec (2 * i) len) as [H | H].
  - apply lt_Num_true. apply lt_INR in H. rewrite mult_INR in H. simpl in H. lra.
  - apply lt_Num_false. apply le_INR in H. rewrite mult_INR in H. simpl in H. lra.
Qed.

(** [i < points.length / 2 - 1], on the loop counter. *)
Lemma lt_half_pred (i len : nat) :
  lt (of_nat i) (sub (div (of_nat len) (Num 2)) (Num 1)) = (2 * i + 2 <? len)%nat.
Proof.
  unfold of_nat. rewrite div_Num by lra. cbn [sub lift2].
  destruct (Nat.ltb_spec (2 * i + 2) len) as [H | H].
  - apply lt_Num_true. apply lt_INR in H.
    rewrite plus_INR, mult_INR in H. simpl in H. lra.
  - apply lt_Num_false. apply le_INR in H.
    rewrite plus_INR, mult_INR in H. simpl in H. lra.
Qed.

End NumberFacts.

(** ** CapGenerator *)

Lemma addCircleStep_Num (cx cy lineAngle radius : R) (nv : nat)
    (b : Buffers) (i : nat) :
  addCircleStep (Num cx) (Num cy) (Num lineAngle) (Num radius) (of_nat nv) b i =
  mkBuffers (vertices b ++ rimVertex cx cy lineAngle radius i)
            (indices b ++ fanTriangle nv i).
Proof.
  assert (H8 : INR 8 = 8%R) by (simpl; lra).
  unfold addCircleStep, STEP, PI, of_nat, SECTORS_IN_CIRCLE.
  rewrite !div_Num by lra.
  cbn [add mul lift2 cos sin lift1].
  unfold rimVertex, fanTriangle, rimAngle, of_nat. rewrite H8.
  change (8 + 1)%nat with 9%nat.
  rewrite !plus_INR. simpl (INR 1).
  reflexivity.
Qed.

Lemma addCircle_fold (cx cy lineAngle radius : R) (nv : nat)
    (l : list nat) (b : Buffers) :
  fold_left (addCircleStep (Num cx) (Num cy) (Num lineAngle) (Num radius)
                           (of_nat nv)) l b =
  mkBuffers (vertices b ++ flat_map (rimVertex cx cy lineAngle radius) l)
            (indices b ++ flat_map (fanTriangle nv) l).
Proof.
  revert b. induction l as [| i l IH]; intros b; simpl.
  - rewrite !app_nil_r. now destruct b.
  - rewrite IH, addCircleStep_Num. simpl. now rewrite <- !app_assoc.
Qed.

Lemma addCircle_closed (cx cy lineAngle radius : R) (b : Buffers) (nv : nat) :
  length (vertices b) = (3 * nv)%nat ->
  addCircle (Num cx) (Num cy) (Num lineAngle) (Num radius) b =
    mkBuffers
      (vertices b ++ [Num cx; Num cy; Num 0] ++
       flat_map (rimVertex cx cy lineAngle radius) (seq 0 9))
      (indices b ++ flat_map (fanTriangle nv) (seq 0 9)).
Proof.
  intros Hlen. unfold addCircle. rewrite Hlen, of_nat_div3.
  change (SECTORS_IN_CIRCLE + 1)%nat with 9%nat.
  rewrite addCircle_fold.
  cbn [vertices indices]. now rewrite <- app_assoc.
Qed.

(** C6.  [addCircle] appends the center vertex [(x, y, 0)] and then the nine
    rim vertices, rim vertex [i] at angle [STEP * i + PI / 2 + lineAngle] and
    at distance [radius] from the center, with [z = 0]; it appends nine
    triangles, triangle [i] joining the center, rim vertex [i] and rim vertex
    [(i + 1) mod 9], so that the last triangle ends on rim vertex 0. *)
Theorem addCircle_geometry (cx cy lineAngle radius : R) (b : Buffers) (nv : nat) :
  length (vertices b) = (3 * nv)%nat ->
  addCircle (Num cx) (Num cy) (Num lineAngle) (Num radius) b =
    mkBuffers
      (vertices b ++ [Num cx; Num cy; Num 0] ++
       flat_map (rimVertex cx cy lineAngle radius) (seq 0 9))
      (indices b ++ flat_map (fanTriangle nv) (seq 0 9))
  /\ fanTriangle nv 8 = [of_nat nv; of_nat (nv + 8 + 1); of_nat (nv + 0 + 1)]
  /\ forall i : nat,
       ((radius * Rtrigo_def.cos (rimAngle lineAngle i)) ^ 2 +
        (radius * Rtrigo_def.sin (rimAngle lineAngle i)) ^ 2 = radius ^ 2)%R.
Proof.
  intros Hlen. split; [now apply addCircle_closed |]. split; [reflexivity |].
  intros i.
  pose proof (sin2_cos2 (rimAngle lineAngle i)) as H. unfold Rsqr in H.
  nra.
Qed.

Lemma addCircle_geometry_witness :
  length (vertices emptyBuffers) = (3 * 0)%nat /\
  addCircle (Num 0) (Num 0) (Num 0) (Num 1) emptyBuffers =
    mkBuffers
      ([] ++ [Num 0; Num 0; Num 0] ++ flat_map (rimVertex 0 0 0 1) (seq 0 9))
      ([] ++ flat_map (fanTriangle 0) (seq 0 9)).
Proof.
  split; [reflexivity |].
  apply (addCircle_geometry 0 0 0 1 emptyBuffers 0). reflexivity.
Defined.

(** ** Buffers only grow *)

Lemma addCircle_appends (cx cy lineAngle radius : number) (b : Buffers) :
  (exists vs, vertices (addCircle cx cy lineAngle radius b) = vertices b ++ vs) /\
  (exists ixs, indices (addCircle cx cy lineAngle radius b) = indices b ++ ixs).
Proof.
  unfold addCircle.
  set (step := addCircleStep _ _ _ _ _).
  assert (Hfold : forall l b0,
    (exists vs, vertices (fold_left step l b0) = vertices b0 ++ vs) /\
    (exists ixs, indices (fold_left step l b0) = indices b0 ++ ixs)).
  { induction l as [| i l IH]; intros b0; simpl.
    - split; exists []; now rewrite app_nil_r.
    - destruct (IH (step b0 i)) as [[vs Hv] [ixs Hi]].
      rewrite Hv, Hi. subst step. unfold addCircleStep. cbn [vertices indices].
      rewrite <- !app_assoc. eauto. }
  destruct (Hfold (seq 0 (SECTORS_IN_CIRCLE + 1))
                  (mkBuffers (vertices b ++ [cx; cy; Num 0]) (indices b)))
    as [[vs Hv] [ixs Hi]].
  rewrite Hv, Hi. cbn [vertices indices]. rewrite <- app_assoc. eauto.
Qed.

Lemma strokeLoop_appends (fuel : nat) (points : list number) (width N : number)
    (i : nat) (prevDir : Vector3) (vs : list number) :
  exists pushed, strokeLoop fuel points width N i prevDir vs = vs ++ pushed.
Proof.
  revert i prevDir vs. induction fuel as [| fuel IH]; intros i prevDir vs;
    cbn [strokeLoop].
  - exists []. now rewrite app_nil_r.
  - destruct (lt (of_nat i) N).
    + destruct (strokeStep points width N i prevDir) as [prevDir' pushed].
      destruct (IH (S i) prevDir' (vs ++ pushed)) as [more Hmore].
      rewrite Hmore, <- app_assoc. eauto.
    + exists []. now rewrite app_nil_r.
Qed.

Lemma indexLoop_appends (fuel : nat) (N baseVertex : number) (i : nat)
    (ixs : list number) :
  exists pushed, indexLoop fuel N baseVertex i ixs = ixs ++ pushed.
Proof.
  revert i ixs. induction fuel as [| fuel IH]; intros i ixs; cbn [indexLoop].
  - exists []. now rewrite app_nil_r.
  - destruct (lt (of_nat i) (sub N (Num 1))).
    + destruct (IH (S i) (ixs ++ map (fun o => add (add baseVertex (mul (of_nat i) (Num 2))) (of_nat o)) POINTS))
        as [more Hmore].
      rewrite Hmore, <- app_assoc. eauto.
    + exists []. now rewrite app_nil_r.
Qed.

(** C9.  Every call of [triangulateLine], caps included, only appends: the
    vertex buffer and the index buffer it leaves both start with the buffers it
    was given, so that what an earlier call on the same pair has written is
    still there, in place, after a later one. *)
Theorem triangulateLine_append_only (points : list number) (width : number)
    (b : Buffers) (startWithCircle endWithCircle : bool) :
  let b' := triangulateLine points width b startWithCircle endWithCircle in
  (exists vs, vertices b' = vertices b ++ vs) /\
  (exists ixs, indices b' = indices b ++ ixs) /\
  (forall (i : nat) (v : number),
     vertices b !! i = Some v -> vertices b' !! i = Some v) /\
  (forall (i : nat) (k : number),
     indices b !! i = Some k -> indices b' !! i = Some k) /\
  (forall (points2 : list number) (width2 : number) (s2 e2 : bool),
     let b'' := triangulateLine points2 width2 b' s2 e2 in
     (exists vs, vertices b'' = vertices b' ++ vs) /\
     (exists ixs, indices b'' = indices b' ++ ixs)).
Proof.
  assert (Happ : forall points width b s e,
    (exists vs, vertices (triangulateLine points width b s e) = vertices b ++ vs) /\
    (exists ixs, indices (triangulateLine points width b s e) = indices b ++ ixs)).
  { clear. intros points width b s e. unfold triangulateLine.
    destruct (length points <? 2)%nat.
    { split; exists []; now rewrite app_nil_r. }
    set (b1 := if s then _ else b).
    assert (H1 : (exists vs, vertices b1 = vertices b ++ vs) /\
                 (exists ixs, indices b1 = indices b ++ ixs)).
    { unfold b1. destruct s.
      - apply addCircle_appends.
      - split; exists []; now rewrite app_nil_r. }
    destruct H1 as [[vs1 Hv1] [ixs1 Hi1]].
    set (N := div _ _). set (base := div _ _).
    destruct (strokeLoop_appends (length points) points width N 0 zero3 (vertices b1))
      as [vs2 Hv2].
    destruct (indexLoop_appends (length points) N base 0 (indices b1))
      as [ixs2 Hi2].
    rewrite Hv2, Hi2, Hv1, Hi1.
    destruct e.
    - match goal with |- context [addCircle ?a ?b ?c ?d ?e] =>
        destruct (addCircle_appends a b c d e) as [[vs3 Hv3] [ixs3 Hi3]] end.
      rewrite Hv3, Hi3. cbn [vertices indices]. rewrite <- !app_assoc. eauto.
    - cbn [vertices indices]. rewrite <- !app_assoc. eauto. }
  intros b'. destruct (Happ points width b startWithCircle endWithCircle)
    as [[vs Hv] [ixs Hi]]. fold b' in Hv, Hi.
  repeat split; eauto.
  - intros i v H. rewrite Hv. now apply lookup_app_l_Some.
  - intros i k H. rewrite Hi. now apply lookup_app_l_Some.
  - apply Happ.
  - apply Happ.
Qed.

Lemma triangulateLine_append_only_witness :
  exists vs : list number,
    vertices (triangulateLine [Num 1; Num 2] (Num 1)
                              (mkBuffers [Num 9; Num 9; Num 9] [Num 0])
                              true true) =
    [Num 9; Num 9; Num 9] ++ vs.
Proof.
  exact (proj1 (triangulateLine_append_only [Num 1; Num 2] (Num 1)
                  (mkBuffers [Num 9; Num 9; Num 9] [Num 0]) true true)).
Defined.

(** ** LineExtruder: the two loops in closed form *)

Lemma strokeStep_closed (points : list number) (width : number) (i : nat) :
  strokeStep points width (div (of_nat (length points)) (Num 2)) i
             (prevDirAt points i) =
  (prevDirAt points (if (2 * (i + 1) <? length points)%nat then S i else i),
   offsetPair points width i).
Proof.
  unfold strokeStep, offsetPair, offsetDir. rewrite lt_half.
  destruct (2 * (i + 1) <? length points)%nat; [| reflexivity].
  destruct i as [| j]; reflexivity.
Qed.

Lemma strokeLoop_closed (points : list number) (width : number) (fuel i : nat)
    (vs : list number) :
  ((length points + 1) / 2 - i <= fuel)%nat ->
  strokeLoop fuel points width (div (of_nat (length points)) (Num 2)) i
             (prevDirAt points i) vs =
  vs ++ flat_map (offsetPair points width)
                 (seq i ((length points + 1) / 2 - i)).
Proof.
  revert i vs. induction fuel as [| fuel IH]; intros i vs Hfuel.
  - replace ((length points + 1) / 2 - i)%nat with 0%nat by lia.
    simpl. now rewrite app_nil_r.
  - cbn [strokeLoop]. rewrite lt_half.
    destruct (Nat.ltb_spec (2 * i) (length points)) as [Hi | Hi].
    + rewrite strokeStep_closed.
      assert (Hn : ((length points + 1) / 2 - i
                    = S ((length points + 1) / 2 - S i))%nat).
      { pose proof (Nat.div_mod_eq (length points + 1) 2).
        pose proof (Nat.mod_upper_bound (length points + 1) 2). lia. }
      rewrite Hn. cbn [seq flat_map]. rewrite app_assoc.
      destruct (Nat.ltb_spec (2 * (i + 1)) (length points)) as [Hs | Hs].
      * apply IH. lia.
      * (* the last iteration: no iteration follows it *)
        assert (Hz : ((length points + 1) / 2 - S i = 0)%nat).
        { pose proof (Nat.div_mod_eq (length points + 1) 2).
          pose proof (Nat.mod_upper_bound (length points + 1) 2). lia. }
        rewrite Hz. cbn [seq flat_map]. rewrite app_nil_r.
        destruct fuel as [| fuel']; [reflexivity |].
        cbn [strokeLoop]. rewrite lt_half.
        destruct (Nat.ltb_spec (2 * S i) (length points)); [lia | reflexivity].
    + replace ((length points + 1) / 2 - i)%nat with 0%nat.
      * simpl. now rewrite app_nil_r.
      * pose proof (Nat.div_mod_eq (length points + 1) 2).
        pose proof (Nat.mod_upper_bound (length points + 1) 2). lia.
Qed.

Lemma indexLoop_closed (len : nat) (baseVertex : number) (fuel i : nat)
    (ixs : list number) :
  ((len - 1) / 2 - i <= fuel)%nat ->
  indexLoop fuel (div (of_nat len) (Num 2)) baseVertex i ixs =
  ixs ++ flat_map (segmentTriangles baseVertex) (seq i ((len - 1) / 2 - i)).
Proof.
  revert i ixs. induction fuel as [| fuel IH]; intros i ixs Hfuel.
  - replace ((len - 1) / 2 - i)%nat with 0%nat by lia.
    simpl. now rewrite app_nil_r.
  - cbn [indexLoop]. rewrite lt_half_pred.
    pose proof (Nat.div_mod_eq (len - 1) 2) as Hd.
    pose proof (Nat.mod_upper_bound (len - 1) 2) as Hm.
    destruct (Nat.ltb_spec (2 * i + 2) len) as [Hi | Hi].
    + replace ((len - 1) / 2 - i)%nat with (S ((len - 1) / 2 - S i)) by lia.
      cbn [seq flat_map]. rewrite app_assoc. apply IH. lia.
    + replace ((len - 1) / 2 - i)%nat with 0%nat by lia.
      simpl. now rewrite app_nil_r.
Qed.

(** The whole of [triangulateLine] without caps. *)
Lemma triangulateLine_stroke (points : list number) (width : number)
    (b : Buffers) :
  (2 <= length points)%nat ->
  triangulateLine points width b false false =
  mkBuffers
    (vertices b ++ flat_map (offsetPair points width)
                            (seq 0 ((length points + 1) / 2)))
    (indices b ++
     flat_map (segmentTriangles (div (of_nat (length (vertices b))) (Num 3)))
              (seq 0 ((length points - 1) / 2))).
Proof.
  intros Hlen. unfold triangulateLine.
  destruct (Nat.ltb_spec (length points) 2) as [H | _]; [lia |].
  change zero3 with (prevDirAt points 0).
  rewrite strokeLoop_closed, indexLoop_closed.
  - now rewrite !Nat.sub_0_r.
  - pose proof (Nat.div_mod_eq (length points - 1) 2).
    pose proof (Nat.mod_upper_bound (length points - 1) 2). lia.
  - pose proof (Nat.div_mod_eq (length points + 1) 2).
    pose proof (Nat.mod_upper_bound (length points + 1) 2). lia.
Qed.

(** ** Real polylines *)

Lemma length_flatten (pts : list (R * R)) :
  length (flatten pts) = (2 * length pts)%nat.
Proof.
  induction pts as [| p pts IH]; [reflexivity |].
  change (flatten (p :: pts)) with (Num p.1 :: Num p.2 :: flatten pts).
  cbn [length]. lia.
Qed.

Lemma lookup_flatten (pts : list (R * R)) (i : nat) :
  (i < length pts)%nat ->
  flatten pts !! (i * 2)%nat = Some (Num (nthPoint pts i).1) /\
  flatten pts !! (i * 2 + 1)%nat = Some (Num (nthPoint pts i).2).
Proof.
  revert i. induction pts as [| p pts IH]; intros i Hi; simpl in Hi; [lia |].
  change (flatten (p :: pts)) with (Num p.1 :: Num p.2 :: flatten pts).
  destruct i as [| i]; [split; reflexivity |].
  apply (IH i). lia.
Qed.

Lemma pointAt_flatten (pts : list (R * R)) (i : nat) :
  (i < length pts)%nat ->
  pointAt (flatten pts) i = vecR (nthPoint pts i).1 (nthPoint pts i).2 0.
Proof.
  intros Hi. destruct (lookup_flatten pts i Hi) as [Hx Hy].
  unfold pointAt, get. now rewrite Hx, Hy.
Qed.

Lemma lengthOr1_pos (a b c : R) : (0 < lengthOr1 a b c)%R.
Proof.
  unfold lengthOr1. destruct (Req_dec_T _ 0) as [_ | H]; [lra |].
  destruct (sqrt_pos (a * a + b * b + c * c)) as [Hp | Hp]; [exact Hp |].
  now rewrite <- Hp in H.
Qed.

Lemma lengthOr1_eq (a b c l : R) :
  (0 < l)%R -> (l * l = a * a + b * b + c * c)%R -> lengthOr1 a b c = l.
Proof.
  intros Hl Heq. unfold lengthOr1.
  rewrite (sqrt_lem_1 (a * a + b * b + c * c) l) by nra.
  destruct (Req_dec_T l 0); [lra | reflexivity].
Qed.

Lemma normalize_vecR (a b c : R) :
  normalize (vecR a b c) =
  vecR (a * (1 / lengthOr1 a b c)) (b * (1 / lengthOr1 a b c))
       (c * (1 / lengthOr1 a b c)).
Proof.
  unfold normalize, length3, vecR. cbn [x y z mul add lift2].
  rewrite sqrt_Num by nra.
  unfold lengthOr1, or, divideScalar.
  destruct (Req_dec_T _ 0) as [E | E]; rewrite div_Num by lra; reflexivity.
Qed.

Lemma sub3_vecR (a b c d e f : R) :
  sub3 (vecR a b c) (vecR d e f) = vecR (a - d) (b - e) (c - f).
Proof. reflexivity. Qed.

Lemma add3_vecR (a b c d e f : R) :
  add3 (vecR a b c) (vecR d e f) = vecR (a + d) (b + e) (c + f).
Proof. reflexivity. Qed.

Lemma multiplyScalar_vecR (a b c s : R) :
  multiplyScalar (vecR a b c) (Num s) = vecR (a * s) (b * s) (c * s).
Proof. reflexivity. Qed.

Lemma dot_vecR (a b c d e f : R) :
  dot (vecR a b c) (vecR d e f) = Num (a * d + b * e + c * f).
Proof. reflexivity. Qed.

Lemma cross_UNIT_Z (a b c : R) :
  cross (vecR a b c) UNIT_Z = vecR (b * 1 - c * 0) (c * 0 - a * 1) (a * 0 - b * 0).
Proof. reflexivity. Qed.

Lemma vecR_ext (a b c a' b' c' : R) :
  a = a' -> b = b' -> c = c' -> vecR a b c = vecR a' b' c'.
Proof. now intros -> -> ->. Qed.

Lemma segmentDir_flatten (pts : list (R * R)) (i : nat) :
  (i + 1 < length pts)%nat ->
  segmentDir (flatten pts) i =
  vecR (segmentDirR (nthPoint pts i) (nthPoint pts (i + 1))).1
       (segmentDirR (nthPoint pts i) (nthPoint pts (i + 1))).2 0.
Proof.
  intros Hi. unfold segmentDir.
  rewrite !pointAt_flatten by lia.
  rewrite sub3_vecR, normalize_vecR, cross_UNIT_Z.
  replace (0 - 0)%R with 0%R by lra.
  unfold segmentDirR. cbn [fst snd].
  apply vecR_ext; field; apply Rgt_not_eq, lengthOr1_pos.
Qed.

(** ** LineReconstructor *)

Lemma length_reconstructStep (inBuffer outBuffer : list number) (i i2 : nat) :
  length (reconstructStep inBuffer outBuffer i i2) = length outBuffer.
Proof. unfold reconstructStep. now rewrite !length_insert. Qed.

Lemma length_reconstructLoop (fuel : nat) (inBuffer outBuffer : list number)
    (i i2 : nat) :
  length (reconstructLoop fuel inBuffer outBuffer i i2) = length outBuffer.
Proof.
  revert outBuffer i i2.
  induction fuel as [| fuel IH]; intros outBuffer i i2; cbn [reconstructLoop];
    [reflexivity |].
  destruct (i <? length outBuffer)%nat; [| reflexivity].
  now rewrite IH, length_reconstructStep.
Qed.

Lemma lookup_reconstructStep (inBuffer outBuffer : list number) (s j : nat) :
  (j < length outBuffer)%nat ->
  reconstructStep inBuffer outBuffer (3 * s) (6 * s) !! j =
  if ((3 * s <=? j) && (j <? 3 * s + 3))%nat
  then Some (midpoint inBuffer s (j - 3 * s))
  else outBuffer !! j.
Proof.
  intros Hj. unfold reconstructStep.
  destruct (Nat.leb_spec (3 * s) j) as [Hlo | Hlo];
    destruct (Nat.ltb_spec j (3 * s + 3)) as [Hhi | Hhi]; cbn [andb];
    try (rewrite !list_lookup_insert_ne by lia; reflexivity).
  assert (Hc : (j = 3 * s \/ j = 3 * s + 1 \/ j = 3 * s + 2)%nat) by lia.
  destruct Hc as [-> | [-> | ->]].
  - rewrite !list_lookup_insert_ne by lia.
    rewrite list_lookup_insert_eq by lia.
    replace (3 * s - 3 * s)%nat with 0%nat by lia. reflexivity.
  - rewrite list_lookup_insert_ne by lia.
    rewrite list_lookup_insert_eq by (rewrite length_insert; lia).
    replace (3 * s + 1 - 3 * s)%nat with 1%nat by lia. reflexivity.
  - rewrite list_lookup_insert_eq by (rewrite !length_insert; lia).
    replace (3 * s + 2 - 3 * s)%nat with 2%nat by lia. reflexivity.
Qed.

Lemma lookup_reconstructLoop (fuel : nat) (inBuffer outBuffer : list number)
    (s j : nat) :
  (length outBuffer <= 3 * s + 3 * fuel)%nat ->
  (j < length outBuffer)%nat ->
  reconstructLoop fuel inBuffer outBuffer (3 * s) (6 * s) !! j =
  if (j <? 3 * s)%nat then outBuffer !! j
  else Some (midpoint inBuffer (j / 3) (j mod 3)).
Proof.
  revert outBuffer s.
  induction fuel as [| fuel IH]; intros outBuffer s Hfuel Hj.
  - destruct (Nat.ltb_spec j (3 * s)); [reflexivity | lia].
  - cbn [reconstructLoop].
    destruct (Nat.ltb_spec (3 * s) (length outBuffer)) as [Hs | Hs].
    + replace (3 * s + 3)%nat with (3 * S s)%nat by lia.
      replace (6 * s + 6)%nat with (6 * S s)%nat by lia.
      rewrite IH by (rewrite ?length_reconstructStep; lia).
      destruct (Nat.ltb_spec j (3 * S s)) as [Hlt | Hge].
      * rewrite lookup_reconstructStep by lia.
        destruct (Nat.leb_spec (3 * s) j) as [Hlo | Hlo];
          destruct (Nat.ltb_spec j (3 * s + 3)) as [Hhi | Hhi]; cbn [andb];
          destruct (Nat.ltb_spec j (3 * s)) as [Hl | Hl]; try lia;
          try reflexivity.
        assert (Hdiv : (j / 3 = s)%nat)
          by (symmetry; apply (Nat.div_unique j 3 s (j - 3 * s)); lia).
        assert (Hmod : (j mod 3 = j - 3 * s)%nat)
          by (symmetry; apply (Nat.mod_unique j 3 s (j - 3 * s)); lia).
        now rewrite Hdiv, Hmod.
      * destruct (Nat.ltb_spec j (3 * s)); [lia | reflexivity].
    + destruct (Nat.ltb_spec j (3 * s)); [reflexivity | lia].
Qed.

(** The slots of the result of [reconstructLine], one by one. *)
Lemma lookup_reconstructLine (inBuffer : list number) (startOffset j : nat) :
  (j < length inBuffer / 2)%nat ->
  reconstructLine inBuffer startOffset !! j =
  Some (if (j <? 3 * startOffset)%nat then Num 0
        else midpoint inBuffer (j / 3) (j mod 3)).
Proof.
  intros Hj. unfold reconstructLine.
  replace (startOffset * 3 * 2)%nat with (6 * startOffset)%nat by lia.
  replace (startOffset * 3)%nat with (3 * startOffset)%nat by lia.
  rewrite lookup_reconstructLoop by (rewrite ?length_replicate; lia).
  destruct (j <? 3 * startOffset)%nat; [| reflexivity].
  now rewrite lookup_replicate_2.
Qed.

Lemma length_reconstructLine (inBuffer : list number) (startOffset : nat) :
  length (reconstructLine inBuffer startOffset) = (length inBuffer / 2)%nat.
Proof.
  unfold reconstructLine. now rewrite length_reconstructLoop, length_replicate.
Qed.

(** ** Lists made of chunks of one length *)

Lemma lookup_flat_map_chunks {A B : Type} (f : A -> list B) (m : nat)
    (l : list A) (k c : nat) (a : A) :
  (forall a', length (f a') = m) ->
  (c < m)%nat ->
  l !! k = Some a ->
  flat_map f l !! (m * k + c)%nat = f a !! c.
Proof.
  intros Hlen Hc. revert k.
  induction l as [| a0 l IH]; intros k Hk; [discriminate |].
  cbn [flat_map]. destruct k as [| k].
  - injection Hk as ->. rewrite Nat.mul_0_r, Nat.add_0_l.
    apply lookup_app_l. now rewrite Hlen.
  - rewrite lookup_app_r by (rewrite Hlen; lia).
    rewrite Hlen. replace (m * S k + c - m)%nat with (m * k + c)%nat by lia.
    now apply IH.
Qed.

Lemma length_flat_map_chunks {A B : Type} (f : A -> list B) (m : nat)
    (l : list A) :
  (forall a', length (f a') = m) ->
  length (flat_map f l) = (m * length l)%nat.
Proof.
  intros Hlen. induction l as [| a l IH]; cbn [flat_map length]; [lia |].
  rewrite length_app, Hlen, IH. lia.
Qed.

Lemma nthPoint_lookup (pts : list (R * R)) (i : nat) :
  (i < length pts)%nat -> pts !! i = Some (nthPoint pts i).
Proof.
  intros Hi. destruct (nth_lookup_or_length pts i (0, 0)%R) as [H | H];
    [exact H | lia].
Qed.

(** ** Offsets of a real polyline *)

Lemma offsetDir_real (pts : list (R * R)) (i : nat) :
  (i < length pts)%nat ->
  exists a b c : R, offsetDir (flatten pts) i = vecR a b c.
Proof.
  intros Hi. unfold offsetDir. rewrite length_flatten.
  destruct (Nat.ltb_spec (2 * (i + 1)) (2 * length pts)) as [Hs | Hs].
  - destruct i as [| j]; cbn [averagedDir].
    + rewrite segmentDir_flatten by lia. eauto.
    + rewrite !segmentDir_flatten by lia.
      rewrite add3_vecR, dot_vecR. cbn [sub mul lift2].
      rewrite multiplyScalar_vecR. eauto.
  - destruct i as [| j]; cbn [prevDirAt].
    + exists 0%R, 0%R, 0%R. reflexivity.
    + rewrite segmentDir_flatten by lia. eauto.
Qed.

(** The two vertices of a point lie at [p - d * w] and [p + d * w]. *)
Lemma offsetPair_real (pts : list (R * R)) (w : R) (i : nat) (a b c : R) :
  (i < length pts)%nat ->
  offsetDir (flatten pts) i = vecR a b c ->
  offsetPair (flatten pts) (Num w) i =
  [Num (a * - w + (nthPoint pts i).1); Num (b * - w + (nthPoint pts i).2);
   Num (c * - w + 0);
   Num (a * w + (nthPoint pts i).1); Num (b * w + (nthPoint pts i).2);
   Num (c * w + 0)].
Proof.
  intros Hi Hd. unfold offsetPair. rewrite Hd, pointAt_flatten by lia.
  reflexivity.
Qed.

Lemma stroke_vertices_flatten (pts : list (R * R)) (w : number) (b : Buffers) :
  (1 <= length pts)%nat ->
  vertices (triangulateLine (flatten pts) w b false false) =
  vertices b ++ flat_map (offsetPair (flatten pts) w) (seq 0 (length pts)).
Proof.
  intros Hn. rewrite triangulateLine_stroke by (rewrite length_flatten; lia).
  cbn [vertices]. rewrite length_flatten.
  replace ((2 * length pts + 1) / 2)%nat with (length pts); [reflexivity |].
  apply (Nat.div_unique _ 2 _ 1); lia.
Qed.

Lemma lookup_stroke (pts : list (R * R)) (w : number) (k c : nat) :
  (k < length pts)%nat -> (c < 6)%nat ->
  flat_map (offsetPair (flatten pts) w) (seq 0 (length pts)) !! (6 * k + c)%nat =
  offsetPair (flatten pts) w k !! c.
Proof.
  intros Hk Hc.
  apply lookup_flat_map_chunks; [reflexivity | exact Hc |].
  now rewrite lookup_seq_lt.
Qed.

(** The midpoint of the two vertices of point [k] is point [k]. *)
Lemma midpoint_stroke (pts : list (R * R)) (w : R) (k c : nat) :
  (k < length pts)%nat -> (c < 3)%nat ->
  Some (midpoint (flat_map (offsetPair (flatten pts) (Num w))
                           (seq 0 (length pts))) k c) =
  vertexOf (nthPoint pts k) !! c.
Proof.
  intros Hk Hc. unfold midpoint, get.
  replace (6 * k + 3 + c)%nat with (6 * k + (3 + c))%nat by lia.
  rewrite !lookup_stroke by lia.
  destruct (offsetDir_real pts k Hk) as (a & b & d & Hd).
  rewrite (offsetPair_real pts w k a b d Hk Hd).
  unfold vertexOf.
  destruct c as [| [| [| c]]]; [| | | lia];
    cbn [lookup list_lookup default from_option Datatypes.id add sub mul lift2
           Nat.add];
    do 2 f_equal; field.
Qed.

(** ** LineExtruder: caps, guard and small inputs *)

(** The caps are added before and after the stroke. *)
Lemma triangulateLine_caps (points : list number) (width : number)
    (b : Buffers) (startWithCircle endWithCircle : bool) :
  (2 <= length points)%nat ->
  triangulateLine points width b startWithCircle endWithCircle =
  let N := div (of_nat (length points)) (Num 2) in
  let b1 :=
    if startWithCircle
    then addCircle (get points 0) (get points 1) (startLineAngle points)
                   width b
    else b in
  let b2 := triangulateLine points width b1 false false in
  if endWithCircle
  then addCircle (getN points (mul (sub N (Num 1)) (Num 2)))
                 (getN points (add (mul (sub N (Num 1)) (Num 2)) (Num 1)))
                 (endLineAngle points N) width b2
  else b2.
Proof.
  intros Hlen. unfold triangulateLine.
  destruct (Nat.ltb_spec (length points) 2) as [H | _]; [lia | reflexivity].
Qed.

Lemma triangulateLine_short (points : list number) (width : number)
    (b : Buffers) (startWithCircle endWithCircle : bool) :
  (length points < 2)%nat ->
  triangulateLine points width b startWithCircle endWithCircle = b.
Proof.
  intros Hlen. unfold triangulateLine.
  destruct (Nat.ltb_spec (length points) 2) as [_ | H]; [reflexivity | lia].
Qed.

Lemma triangulateLine_single_point (px py w : R) (b : Buffers) :
  triangulateLine [Num px; Num py] (Num w) b false false =
  mkBuffers (vertices b ++ [Num px; Num py; Num 0; Num px; Num py; Num 0])
            (indices b).
Proof.
  rewrite triangulateLine_stroke by (simpl; lia).
  change ((length [Num px; Num py] + 1) / 2)%nat with 1%nat.
  change ((length [Num px; Num py] - 1) / 2)%nat with 0%nat.
  cbn [seq flat_map]. rewrite !app_nil_r.
  f_equal. f_equal.
  unfold offsetPair, offsetDir.
  change (2 * (0 + 1) <? length [Num px; Num py])%nat with false.
  cbn [prevDirAt]. unfold pointAt, get. cbn [lookup list_lookup Nat.mul Nat.add
    default from_option Datatypes.id].
  unfold zero3, multiplyScalar, add3, coords.
  cbn [x y z neg lift1 mul add lift2 app].
  repeat (f_equal; try lra).
Qed.

(** ** The straight-line scenario *)

Lemma segmentDirR_east (l : R) :
  (0 < l)%R -> segmentDirR (0, 0)%R (l, 0)%R = (0, -1)%R.
Proof.
  intros Hl. unfold segmentDirR. cbn [fst snd].
  rewrite (lengthOr1_eq (l - 0) (0 - 0) 0 l) by (lra || nra).
  f_equal; field; lra.
Qed.

Lemma scenario_offsetDir (i : nat) :
  (i < 2)%nat ->
  offsetDir (flatten [(0, 0); (10, 0)]%R) i = vecR 0 (-1) 0.
Proof.
  intros Hi. unfold offsetDir.
  destruct i as [| [| i]]; [| | lia].
  - change (2 * (0 + 1) <? _)%nat with true. cbn [averagedDir].
    rewrite segmentDir_flatten by (simpl; lia).
    change (nthPoint _ 0) with (0, 0)%R. change (nthPoint _ (0 + 1)) with (10, 0)%R.
    rewrite segmentDirR_east by lra. reflexivity.
  - change (2 * (1 + 1) <? _)%nat with false. cbn [prevDirAt].
    rewrite segmentDir_flatten by (simpl; lia).
    change (nthPoint _ 0) with (0, 0)%R. change (nthPoint _ (0 + 1)) with (10, 0)%R.
    rewrite segmentDirR_east by lra. reflexivity.
Qed.

Lemma scenario_result :
  triangulateLine scenarioPoints (Num 2) emptyBuffers false false =
  scenarioBuffers.
Proof.
  change scenarioPoints with (flatten [(0, 0); (10, 0)]%R).
  rewrite triangulateLine_stroke by (simpl; lia).
  change ((length (flatten [(0, 0); (10, 0)]%R) + 1) / 2)%nat with 2%nat.
  change ((length (flatten [(0, 0); (10, 0)]%R) - 1) / 2)%nat with 1%nat.
  cbn [seq flat_map emptyBuffers vertices indices app].
  rewrite !(offsetPair_real _ 2 _ 0 (-1) 0) by (simpl; lia || apply scenario_offsetDir; lia).
  change (nthPoint _ 0) with (0, 0)%R. change (nthPoint _ 1) with (10, 0)%R.
  unfold segmentTriangles, POINTS, of_nat. rewrite div_Num by lra.
  cbn [map add mul lift2 app fst snd length INR].
  unfold scenarioBuffers.
  repeat (f_equal; try lra).
Qed.

(** ** Claims on short inputs and on the scenario *)

(** C10.  A call with one point [[x, y]] and no caps passes the length guard
    and appends two vertices, both [(x, y, 0)], because the point is offset
    along the previous direction, which is still the zero vector; it appends
    no index. *)
Theorem triangulateLine_one_point (px py w : R) (b : Buffers) :
  (length [Num px; Num py] <? 2)%nat = false /\
  offsetDir [Num px; Num py] 0 = zero3 /\
  triangulateLine [Num px; Num py] (Num w) b false false =
  mkBuffers (vertices b ++ [Num px; Num py; Num 0] ++ [Num px; Num py; Num 0])
            (indices b).
Proof.
  split; [reflexivity |]. split; [reflexivity |].
  apply triangulateLine_single_point.
Qed.

Lemma triangulateLine_one_point_witness :
  triangulateLine [Num 3; Num 5] (Num 2) emptyBuffers false false =
  mkBuffers ([] ++ [Num 3; Num 5; Num 0] ++ [Num 3; Num 5; Num 0]) [].
Proof.
  exact (proj2 (proj2 (triangulateLine_one_point 3 5 2 emptyBuffers))).
Defined.

(** C4, amended.  An input of fewer than 2 numbers, which holds no complete
    point, leaves both buffers as they are, whatever the width and the cap
    flags. *)
Theorem triangulateLine_no_op (points : list number) (width : number)
    (b : Buffers) (startWithCircle endWithCircle : bool) :
  (length points < 2)%nat ->
  triangulateLine points width b startWithCircle endWithCircle = b.
Proof. apply triangulateLine_short. Qed.

Lemma triangulateLine_no_op_witness :
  (length [Num 7] < 2)%nat /\
  triangulateLine [Num 7] (Num 1) emptyBuffers true true = emptyBuffers.
Proof.
  split; [simpl; lia |].
  apply (triangulateLine_no_op [Num 7] (Num 1) emptyBuffers true true).
  simpl; lia.
Defined.

(** C4 as stated fails: one point is fewer than 2 points and fewer than 4
    numbers, and the call appends two vertices. *)
Lemma triangulateLine_no_op_counterexample :
  (length [Num 1; Num 2] < 4)%nat /\
  triangulateLine [Num 1; Num 2] (Num 1) emptyBuffers false false <>
  emptyBuffers.
Proof.
  split; [simpl; lia |].
  rewrite triangulateLine_single_point. discriminate.
Qed.

(** C2, amended.  [triangulateLine([0,0, 10,0], 2, v, i, false, false)] on
    empty buffers leaves [v = [0,2,0, 0,-2,0, 10,2,0, 10,-2,0]] and
    [i = [0,1,2, 1,3,2]]: of each pair the vertex at [+2] comes first. *)
Theorem triangulateLine_scenario :
  triangulateLine scenarioPoints (Num 2) emptyBuffers false false =
  scenarioBuffers.
Proof. exact scenario_result. Qed.

(** C2 as stated fails: the vertex buffer is not the announced one. *)
Lemma triangulateLine_scenario_counterexample :
  triangulateLine scenarioPoints (Num 2) emptyBuffers false false <>
  scenarioBuffersSpec.
Proof.
  rewrite scenario_result. unfold scenarioBuffers, scenarioBuffersSpec.
  intros H. injection H as H. lra.
Qed.

(** ** Claims on reconstruction *)



(** ** A capped line, reconstructed past its cap *)




(** ** Cap angles *)

Lemma find_index (k s n : nat) :
  find (fun i => if Req_dec_T (INR i) (INR k) then true else false) (seq s n) =
  if ((s <=? k) && (k <? s + n))%nat then Some k else None.
Proof.
  revert s. induction n as [| n IH]; intros s; cbn [seq find].
  - destruct (Nat.leb_spec s k); destruct (Nat.ltb_spec k (s + 0));
      try reflexivity; lia.
  - destruct (Req_dec_T (INR s) (INR k)) as [E | E].
    + apply INR_eq in E. subst s.
      destruct (Nat.leb_spec k k); destruct (Nat.ltb_spec k (k + S n));
        try reflexivity; lia.
    + rewrite IH.
      assert (s <> k) by (intros ->; now apply E).
      destruct (Nat.leb_spec (S s) k); destruct (Nat.ltb_spec k (S s + n));
        destruct (Nat.leb_spec s k); destruct (Nat.ltb_spec k (s + S n));
        try reflexivity; lia.
Qed.

(** Reading at a number that is a natural number reads at that index. *)
Lemma getN_INR (a : list number) (k : nat) (r : R) :
  r = INR k -> getN a (Num r) = get a k.
Proof.
  intros ->. unfold getN. rewrite find_index.
  destruct (Nat.leb_spec 0 k) as [_ | H0]; [| lia].
  destruct (Nat.ltb_spec k (0 + length a)) as [H | H]; cbn [andb];
    [reflexivity |].
  unfold get. rewrite lookup_ge_None_2 by lia. reflexivity.
Qed.

Lemma get_flatten (pts : list (R * R)) (i : nat) :
  (i < length pts)%nat ->
  get (flatten pts) (2 * i) = Num (nthPoint pts i).1 /\
  get (flatten pts) (2 * i + 1) = Num (nthPoint pts i).2.
Proof.
  intros Hi. destruct (lookup_flatten pts i Hi) as [Hx Hy].
  unfold get. replace (2 * i)%nat with (i * 2)%nat by lia.
  now rewrite Hx, Hy.
Qed.

(** The reads of [triangulateLine] at indices computed from [N]. *)
Lemma getN_from_end (pts : list (R * R)) (j : nat) (r : R) :
  (1 <= j <= length pts)%nat ->
  r = ((INR (length (flatten pts)) / 2 - INR j) * 2)%R ->
  getN (flatten pts) (Num r) = Num (nthPoint pts (length pts - j)).1 /\
  getN (flatten pts) (Num (r + 1)) = Num (nthPoint pts (length pts - j)).2.
Proof.
  intros Hj ->.
  assert (Hr : ((INR (length (flatten pts)) / 2 - INR j) * 2
                = INR (2 * (length pts - j)))%R).
  { rewrite length_flatten, !mult_INR, minus_INR by lia. simpl. lra. }
  destruct (get_flatten pts (length pts - j)) as [Hx Hy]; [lia |].
  split.
  - rewrite (getN_INR _ (2 * (length pts - j))) by exact Hr. exact Hx.
  - rewrite (getN_INR _ (2 * (length pts - j) + 1)); [exact Hy |].
    rewrite plus_INR, Hr. simpl. lra.
Qed.

Lemma startLineAngle_flatten (pts : list (R * R)) :
  (1 <= length pts)%nat ->
  startLineAngle (flatten pts) =
  if (length pts =? 1)%nat then Num 0
  else angle (mkVector2 (Num ((nthPoint pts 1).1 - (nthPoint pts 0).1))
                        (Num ((nthPoint pts 1).2 - (nthPoint pts 0).2))).
Proof.
  intros Hn. unfold startLineAngle. rewrite length_flatten.
  destruct (Nat.eqb_spec (length pts) 1) as [E | E];
    destruct (Nat.eqb_spec (2 * length pts) 2) as [E2 | E2]; try lia;
    cbn [negb]; [reflexivity |].
  destruct (get_flatten pts 0) as [Hx0 Hy0]; [lia |].
  destruct (get_flatten pts 1) as [Hx1 Hy1]; [lia |].
  cbn [Nat.mul Nat.add] in Hx0, Hy0, Hx1, Hy1.
  now rewrite Hx0, Hy0, Hx1, Hy1.
Qed.

Lemma endLineAngle_flatten (pts : list (R * R)) :
  (1 <= length pts)%nat ->
  endLineAngle (flatten pts) (div (of_nat (length (flatten pts))) (Num 2)) =
  if (length pts =? 1)%nat then PI
  else angle (mkVector2
                (Num ((nthPoint pts (length pts - 2)).1
                      - (nthPoint pts (length pts - 1)).1))
                (Num ((nthPoint pts (length pts - 2)).2
                      - (nthPoint pts (length pts - 1)).2))).
Proof.
  intros Hn. unfold endLineAngle.
  rewrite (length_flatten pts) at 1.
  destruct (Nat.eqb_spec (length pts) 1) as [E | E];
    destruct (Nat.eqb_spec (2 * length pts) 2) as [E2 | E2]; try lia;
    cbn [negb]; [reflexivity |].
  unfold of_nat. rewrite div_Num by lra. cbn [sub mul add lift2].
  destruct (getN_from_end pts 2 _ ltac:(lia) eq_refl) as [Hx2 Hy2].
  destruct (getN_from_end pts 1 _ ltac:(lia) eq_refl) as [Hx1 Hy1].
  simpl (INR 2) in Hx2, Hy2. simpl (INR 1) in Hx1, Hy1.
  replace (1 + 1)%R with 2%R in Hx2, Hy2 by lra.
  now rewrite Hx2, Hy2, Hx1, Hy1.
Qed.

Lemma atan2R_vertical (v : R) :
  v <> 0%R ->
  atan2R v 0 = if Rlt_dec v 0 then (- (Rtrigo1.PI / 2))%R else (Rtrigo1.PI / 2)%R.
Proof.
  intros Hv. unfold atan2R.
  destruct (total_order_T 0 0) as [[H | _] | H]; try lra.
  destruct (total_order_T v 0) as [[H | H] | H];
    destruct (Rlt_dec v 0); try reflexivity; lra.
Qed.

Lemma angle_vertical (u v : R) :
  u = 0%R -> v <> 0%R ->
  angle (mkVector2 (Num u) (Num v)) =
  if Rlt_dec v 0 then Num (3 * Rtrigo1.PI / 2) else Num (Rtrigo1.PI / 2).
Proof.
  intros -> Hv. unfold angle. cbn [x2 y2 atan2 lift2].
  rewrite atan2R_vertical by exact Hv.
  pose proof PI_RGT_0 as Hpi.
  destruct (Rlt_dec v 0).
  - rewrite lt_Num_true by lra. unfold PI. cbn [mul add lift2].
    f_equal. lra.
  - rewrite lt_Num_false by lra. reflexivity.
Qed.

(** C5, amended.  With [startWithCircle] set, a cap is added at the first
    point, and its incline angle is the angle of the vector from the first
    point to the second, except that it is 0 when the input holds exactly
    one point (two numbers); with [endWithCircle] set, a cap is added at the
    last point, and its incline angle is the angle of the vector from the
    last point to the one before it, except that it is PI when the input
    holds exactly one point. *)
Theorem cap_incline_angles (pts : list (R * R)) (width : number) (b : Buffers)
    (startWithCircle endWithCircle : bool) :
  (1 <= length pts)%nat ->
  let n := length pts in
  let first := nthPoint pts 0 in
  let second := nthPoint pts 1 in
  let last := nthPoint pts (n - 1) in
  let beforeLast := nthPoint pts (n - 2) in
  let startAngle :=
    if (n =? 1)%nat then Num 0
    else angle (mkVector2 (Num (second.1 - first.1))
                          (Num (second.2 - first.2))) in
  let endAngle :=
    if (n =? 1)%nat then PI
    else angle (mkVector2 (Num (beforeLast.1 - last.1))
                          (Num (beforeLast.2 - last.2))) in
  triangulateLine (flatten pts) width b startWithCircle endWithCircle =
  let b1 :=
    if startWithCircle
    then addCircle (Num first.1) (Num first.2) startAngle width b
    else b in
  let b2 := triangulateLine (flatten pts) width b1 false false in
  if endWithCircle
  then addCircle (Num last.1) (Num last.2) endAngle width b2
  else b2.
Proof.
  intros Hn n first second last beforeLast startAngle endAngle.
  rewrite triangulateLine_caps by (rewrite length_flatten; lia).
  cbv zeta.
  rewrite startLineAngle_flatten, endLineAngle_flatten by exact Hn.
  destruct (get_flatten pts 0) as [Hx0 Hy0]; [lia |].
  cbn [Nat.mul Nat.add] in Hx0, Hy0. rewrite Hx0, Hy0.
  unfold of_nat. rewrite div_Num by lra. cbn [sub mul add lift2].
  destruct (getN_from_end pts 1 _ ltac:(lia) eq_refl) as [Hxl Hyl].
  simpl (INR 1) in Hxl, Hyl. rewrite Hxl, Hyl.
  reflexivity.
Qed.

Lemma cap_incline_angles_witness :
  (1 <= length [(0, 0); (0, 10)]%R)%nat /\
  triangulateLine (flatten [(0, 0); (0, 10)]%R) (Num 1) emptyBuffers true false =
  triangulateLine (flatten [(0, 0); (0, 10)]%R) (Num 1)
    (addCircle (Num 0) (Num 0)
       (angle (mkVector2 (Num (0 - 0)) (Num (10 - 0)))) (Num 1) emptyBuffers)
    false false.
Proof.
  split; [simpl; lia |].
  apply (cap_incline_angles [(0, 0); (0, 10)]%R (Num 1) emptyBuffers true false).
  simpl; lia.
Defined.

(** C5 as stated fails: on a polyline of exactly two points, here from
    (0, 0) to (0, 10), the angles are computed from the direction and are
    neither 0 nor PI. *)
Lemma cap_incline_angles_counterexample :
  length verticalPoints = 4%nat /\
  startLineAngle verticalPoints = Num (Rtrigo1.PI / 2) /\
  startLineAngle verticalPoints <> Num 0 /\
  endLineAngle verticalPoints (div (of_nat (length verticalPoints)) (Num 2))
    = Num (3 * Rtrigo1.PI / 2) /\
  endLineAngle verticalPoints (div (of_nat (length verticalPoints)) (Num 2))
    <> PI.
Proof.
  pose proof PI_RGT_0 as Hpi.
  change verticalPoints with (flatten [(0, 0); (0, 10)]%R).
  rewrite startLineAngle_flatten, endLineAngle_flatten by (simpl; lia).
  change (length [(0, 0); (0, 10)]%R =? 1)%nat with false. cbv iota.
  change (length [(0, 0); (0, 10)]%R - 2)%nat with 0%nat.
  change (length [(0, 0); (0, 10)]%R - 1)%nat with 1%nat.
  change (nthPoint [(0, 0); (0, 10)]%R 0) with (0, 0)%R.
  change (nthPoint [(0, 0); (0, 10)]%R 1) with (0, 10)%R.
  cbn [fst snd].
  rewrite !angle_vertical by lra.
  destruct (Rlt_dec (10 - 0) 0) as [H | _]; [lra |].
  destruct (Rlt_dec (0 - 10) 0) as [_ | H]; [| lra].
  repeat split; try reflexivity.
  - intros H. injection H as H. lra.
  - unfold PI. intros H. injection H as H. lra.
Qed.

(** ** Width reconstruction *)

Lemma segmentDirR_unit (p q : R * R) :
  p <> q ->
  ((segmentDirR p q).1 * (segmentDirR p q).1 +
   (segmentDirR p q).2 * (segmentDirR p q).2 = 1)%R.
Proof.
  intros Hpq. destruct p as [px py], q as [qx qy].
  unfold segmentDirR. cbn [fst snd].
  set (dx := (qx - px)%R). set (dy := (qy - py)%R).
  assert (Hd : (0 < dx * dx + dy * dy + 0 * 0)%R).
  { destruct (Req_dec_T dx 0) as [Ex | Ex]; [| nra].
    destruct (Req_dec_T dy 0) as [Ey | Ey]; [| nra].
    exfalso. apply Hpq. unfold dx, dy in *. f_equal; lra. }
  pose proof (sqrt_lt_R0 _ Hd) as Hs.
  pose proof (sqrt_sqrt (dx * dx + dy * dy + 0 * 0) ltac:(lra)) as Hss.
  unfold lengthOr1. destruct (Req_dec_T _ 0) as [E | _]; [lra |].
  set (s := R_sqrt.sqrt _) in *.
  replace (dy / s * (dy / s) + - dx / s * (- dx / s))%R
    with ((dx * dx + dy * dy + 0 * 0) / (s * s))%R by (field; lra).
  rewrite Hss. field. lra.
Qed.


Lemma offsetDir_first (pts : list (R * R)) :
  (2 <= length pts)%nat ->
  offsetDir (flatten pts) 0 =
  vecR (segmentDirR (nthPoint pts 0) (nthPoint pts 1)).1
       (segmentDirR (nthPoint pts 0) (nthPoint pts 1)).2 0.
Proof.
  intros Hn. unfold offsetDir. rewrite length_flatten.
  destruct (Nat.ltb_spec (2 * (0 + 1)) (2 * length pts)); [| lia].
  cbn [averagedDir]. now rewrite segmentDir_flatten by lia.
Qed.

Lemma offsetDir_last (pts : list (R * R)) :
  (2 <= length pts)%nat ->
  offsetDir (flatten pts) (length pts - 1) =
  vecR (segmentDirR (nthPoint pts (length pts - 2))
                    (nthPoint pts (length pts - 1))).1
       (segmentDirR (nthPoint pts (length pts - 2))
                    (nthPoint pts (length pts - 1))).2 0.
Proof.
  intros Hn. unfold offsetDir. rewrite length_flatten.
  destruct (Nat.ltb_spec (2 * (length pts - 1 + 1)) (2 * length pts)); [lia |].
  replace (length pts - 1)%nat with (S (length pts - 2)) by lia.
  cbn [prevDirAt]. rewrite segmentDir_flatten by lia.
  now replace (length pts - 2 + 1)%nat with (S (length pts - 2)) by lia.
Qed.

Lemma width_of_unit (w a b : R) :
  (a * a + b * b = 1)%R -> (w * R_sqrt.sqrt (a * a + b * b + 0 * 0) = w)%R.
Proof.
  intros H. replace (a * a + b * b + 0 * 0)%R with 1%R by lra.
  rewrite sqrt_1. lra.
Qed.



(** ** Miter averaging *)

(** C7, amended.  In [triangulateLine], for every point [i] that has a
    successor, [dir] is the normalized segment direction [(ux, uy, 0)]
    crossed with the unit Z axis, that is [(uy, - ux, 0)]: the direction
    turned clockwise by a quarter turn about Z, its right-hand perpendicular;
    the averaged direction is [dir] for [i = 0] and
    [(dir + prevDir) * (1 - 0.5 * dot(dir, prevDir))] for [i > 0]; the last
    point reuses [prevDir] unchanged; and the two vertices emitted for a
    point are [point - d * width] and then [point + d * width] for that
    direction [d]. *)
Theorem miter_offsets (pts : list (R * R)) (w : R) (b : Buffers)
    (startWithCircle endWithCircle : bool) :
  (1 <= length pts)%nat ->
  let points := flatten pts in
  (exists before after : list number,
     vertices (triangulateLine points (Num w) b startWithCircle endWithCircle) =
     before ++ flat_map (offsetPair points (Num w)) (seq 0 (length pts))
            ++ after /\
     (startWithCircle = false -> before = vertices b) /\
     (endWithCircle = false -> after = [])) /\
  forall i : nat, (i < length pts)%nat ->
    offsetPair points (Num w) i =
      coords (add3 (multiplyScalar (offsetDir points i) (Num (- w)))
                   (pointAt points i)) ++
      coords (add3 (multiplyScalar (offsetDir points i) (Num w))
                   (pointAt points i)) /\
    ((i + 1 < length pts)%nat ->
       (exists ux uy : R,
          normalize (sub3 (pointAt points (i + 1)) (pointAt points i)) =
            vecR ux uy 0 /\
          segmentDir points i = vecR uy (- ux) 0) /\
       offsetDir points i =
         match i with
         | O => segmentDir points 0
         | S j =>
             multiplyScalar
               (add3 (segmentDir points i) (segmentDir points j))
               (sub (Num 1)
                    (mul (Num (1 / 2))
                         (dot (segmentDir points i) (segmentDir points j))))
         end) /\
    ((i + 1 = length pts)%nat ->
       offsetDir points i =
         match i with
         | O => zero3
         | S j => segmentDir points j
         end).
Proof.
  intros Hn points. split.
  - unfold points.
    rewrite triangulateLine_caps by (rewrite length_flatten; lia). cbv zeta.
    set (b1 := if startWithCircle then _ else b).
    destruct endWithCircle.
    + match goal with |- context [addCircle ?cx ?cy ?t ?r ?b0] =>
        destruct (addCircle_appends cx cy t r b0) as [[vs Hvs] _] end.
      rewrite Hvs, stroke_vertices_flatten by exact Hn.
      exists (vertices b1), vs. rewrite <- app_assoc.
      repeat split; [| discriminate].
      intros ->. reflexivity.
    + rewrite stroke_vertices_flatten by exact Hn.
      exists (vertices b1), []. rewrite app_nil_r.
      repeat split. intros ->. reflexivity.
  - intros i Hi. split; [reflexivity |]. split.
    + intros Hs. split.
      * unfold segmentDir. fold points.
        unfold points. rewrite !pointAt_flatten by lia.
        rewrite sub3_vecR, normalize_vecR.
        eexists _, _. split.
        -- apply vecR_ext; [reflexivity | reflexivity |]. lra.
        -- rewrite cross_UNIT_Z. apply vecR_ext; lra.
      * unfold offsetDir, points. rewrite length_flatten.
        destruct (Nat.ltb_spec (2 * (i + 1)) (2 * length pts)); [| lia].
        destruct i; reflexivity.
    + intros Hl. unfold offsetDir, points. rewrite length_flatten.
      destruct (Nat.ltb_spec (2 * (i + 1)) (2 * length pts)); [lia |].
      destruct i; reflexivity.
Qed.

Lemma miter_offsets_witness :
  (1 <= length [(0, 0); (10, 0)]%R)%nat /\
  offsetDir (flatten [(0, 0); (10, 0)]%R) 1 =
  segmentDir (flatten [(0, 0); (10, 0)]%R) 0.
Proof.
  split; [simpl; lia |].
  destruct (miter_offsets [(0, 0); (10, 0)]%R 2 emptyBuffers false false)
    as [_ Hpoint]; [simpl; lia |].
  destruct (Hpoint 1%nat) as (_ & _ & Hlast); [simpl; lia |].
  apply Hlast. reflexivity.
Defined.

(** C7 as stated fails: for the segment from (0, 0) to (10, 0), whose
    normalized direction is (1, 0, 0), [dir] is (0, -1, 0), and the left-hand
    perpendicular is (0, 1, 0). *)
Lemma miter_offsets_counterexample :
  let u := normalize (sub3 (pointAt scenarioPoints 1)
                           (pointAt scenarioPoints 0)) in
  u = vecR 1 0 0 /\
  segmentDir scenarioPoints 0 = vecR 0 (-1) 0 /\
  leftPerpendicular u = vecR 0 1 0 /\
  segmentDir scenarioPoints 0 <> leftPerpendicular u.
Proof.
  assert (Hu : normalize (sub3 (pointAt scenarioPoints 1)
                               (pointAt scenarioPoints 0)) = vecR 1 0 0).
  { change (pointAt scenarioPoints 1) with (vecR 10 0 0).
    change (pointAt scenarioPoints 0) with (vecR 0 0 0).
    rewrite sub3_vecR, normalize_vecR.
    rewrite (lengthOr1_eq (10 - 0) (0 - 0) (0 - 0) 10) by lra.
    apply vecR_ext; lra. }
  assert (Hdir : segmentDir scenarioPoints 0 = vecR 0 (-1) 0).
  { unfold segmentDir. change (0 + 1)%nat with 1%nat.
    rewrite Hu, cross_UNIT_Z. apply vecR_ext; lra. }
  assert (Hleft : leftPerpendicular (vecR 1 0 0) = vecR 0 1 0).
  { unfold leftPerpendicular, vecR. cbn [x y neg lift1].
    f_equal. f_equal. lra. }
  cbv zeta. rewrite Hu, Hdir, Hleft. repeat split.
  unfold vecR. intros H. injection H as H. lra.
Qed.

(** ** Further properties: sizes and indices *)

Lemma addCircle_fold_general (cx cy lineAngle radius baseVertex : number)
    (l : list nat) (b : Buffers) :
  fold_left (addCircleStep cx cy lineAngle radius baseVertex) l b =
  mkBuffers (vertices b ++ flat_map (capRim cx cy lineAngle radius) l)
            (indices b ++ flat_map (capTriangle baseVertex) l).
Proof.
  revert b. induction l as [| i l IH]; intros b; cbn [fold_left flat_map].
  - rewrite !app_nil_r. now destruct b.
  - rewrite IH. unfold addCircleStep, capRim, capTriangle.
    cbn [vertices indices]. now rewrite <- !app_assoc.
Qed.

Lemma addCircle_general (cx cy lineAngle radius : number) (b : Buffers) :
  addCircle cx cy lineAngle radius b =
  mkBuffers
    (vertices b ++ [cx; cy; Num 0] ++
     flat_map (capRim cx cy lineAngle radius) (seq 0 9))
    (indices b ++
     flat_map (capTriangle (div (of_nat (length (vertices b))) (Num 3)))
              (seq 0 9)).
Proof.
  unfold addCircle. change (SECTORS_IN_CIRCLE + 1)%nat with 9%nat.
  rewrite addCircle_fold_general. cbn [vertices indices].
  now rewrite <- app_assoc.
Qed.

Lemma addCircle_lengths (cx cy lineAngle radius : number) (b : Buffers) :
  length (vertices (addCircle cx cy lineAngle radius b)) =
    (length (vertices b) + 30)%nat /\
  length (indices (addCircle cx cy lineAngle radius b)) =
    (length (indices b) + 27)%nat.
Proof.
  rewrite addCircle_general. cbn [vertices indices].
  rewrite !length_app.
  rewrite !(length_flat_map_chunks _ 3) by reflexivity.
  cbn [length seq]. lia.
Qed.

(** X1.  Whatever its arguments, [addCircle] appends one center vertex and
    [numCirclePoints] rim vertices, and [numCirclePoints] triangles. *)
Theorem addCircle_counts (cx cy lineAngle radius : number) (b : Buffers) :
  length (vertices (addCircle cx cy lineAngle radius b)) =
    (length (vertices b) + 3 * (1 + numCirclePoints radius))%nat /\
  length (indices (addCircle cx cy lineAngle radius b)) =
    (length (indices b) + 3 * numCirclePoints radius)%nat.
Proof.
  destruct (addCircle_lengths cx cy lineAngle radius b) as [Hv Hi].
  rewrite Hv, Hi. unfold numCirclePoints, SECTORS_IN_CIRCLE. lia.
Qed.

Lemma triangulateLine_lengths (points : list number) (width : number)
    (b : Buffers) (startWithCircle endWithCircle : bool) :
  length (vertices (triangulateLine points width b startWithCircle
                                    endWithCircle)) =
    (length (vertices b) +
     3 * verticesAdded points startWithCircle endWithCircle)%nat /\
  length (indices (triangulateLine points width b startWithCircle
                                   endWithCircle)) =
    (length (indices b) +
     3 * trianglesAdded points startWithCircle endWithCircle)%nat.
Proof.
  unfold verticesAdded, trianglesAdded.
  destruct (Nat.ltb_spec (length points) 2) as [Hshort | Hlen].
  { rewrite triangulateLine_short by exact Hshort. lia. }
  rewrite triangulateLine_caps by exact Hlen. cbv zeta.
  set (b1 := if startWithCircle then _ else b).
  assert (H1 : length (vertices b1) =
                 (length (vertices b) + if startWithCircle then 30 else 0)%nat /\
               length (indices b1) =
                 (length (indices b) + if startWithCircle then 27 else 0)%nat).
  { unfold b1. destruct startWithCircle; [apply addCircle_lengths | lia]. }
  destruct H1 as [Hv1 Hi1].
  assert (H2 : length (vertices (triangulateLine points width b1 false false)) =
                 (length (vertices b1) + 6 * ((length points + 1) / 2))%nat /\
               length (indices (triangulateLine points width b1 false false)) =
                 (length (indices b1) + 6 * ((length points - 1) / 2))%nat).
  { rewrite triangulateLine_stroke by exact Hlen. cbn [vertices indices].
    rewrite !length_app.
    rewrite !(length_flat_map_chunks _ 6) by reflexivity.
    now rewrite !length_seq. }
  destruct H2 as [Hv2 Hi2].
  destruct endWithCircle.
  - match goal with |- context [addCircle ?cx ?cy ?t ?r ?b0] =>
      destruct (addCircle_lengths cx cy t r b0) as [Hv3 Hi3] end.
    rewrite Hv3, Hi3, Hv2, Hi2, Hv1, Hi1. destruct startWithCircle; lia.
  - rewrite Hv2, Hi2, Hv1, Hi1. destruct startWithCircle; lia.
Qed.

(** X2.  A call of [triangulateLine] on any input of at least 2 numbers
    appends two vertices per point read (the number of points rounded up)
    and two triangles per segment, plus ten vertices and nine triangles per
    cap; the length of the vertex buffer stays a multiple of 3 if it was. *)
Theorem triangulateLine_counts (points : list number) (width : number)
    (b : Buffers) (startWithCircle endWithCircle : bool) :
  (2 <= length points)%nat ->
  let b' := triangulateLine points width b startWithCircle endWithCircle in
  let caps := ((if startWithCircle then 1 else 0) +
               (if endWithCircle then 1 else 0))%nat in
  let pointsRead := ((length points + 1) / 2)%nat in
  length (vertices b') =
    (length (vertices b) + 3 * (2 * pointsRead + 10 * caps))%nat /\
  length (indices b') =
    (length (indices b) + 3 * (2 * (pointsRead - 1) + 9 * caps))%nat /\
  (forall nv : nat, length (vertices b) = (3 * nv)%nat ->
     length (vertices b') = (3 * (nv + 2 * pointsRead + 10 * caps))%nat).
Proof.
  intros Hlen b' caps pointsRead.
  destruct (triangulateLine_lengths points width b startWithCircle
              endWithCircle) as [Hv Hi].
  fold b' in Hv, Hi. unfold verticesAdded, trianglesAdded in Hv, Hi.
  destruct (Nat.ltb_spec (length points) 2) as [Hshort | _]; [lia |].
  assert (Hseg : ((length points - 1) / 2 = pointsRead - 1)%nat).
  { unfold pointsRead.
    pose proof (Nat.div_mod_eq (length points - 1) 2).
    pose proof (Nat.mod_upper_bound (length points - 1) 2).
    pose proof (Nat.div_mod_eq (length points + 1) 2).
    pose proof (Nat.mod_upper_bound (length points + 1) 2).
    lia. }
  rewrite Hseg in Hi. fold pointsRead in Hv.
  unfold caps. repeat split.
  - rewrite Hv. destruct startWithCircle, endWithCircle; lia.
  - rewrite Hi. destruct startWithCircle, endWithCircle; lia.
  - intros nv Hnv. rewrite Hv, Hnv.
    destruct startWithCircle, endWithCircle; lia.
Qed.

Lemma triangulateLine_counts_witness :
  (2 <= length [Num 0; Num 0; Num 1; Num 0; Num 1; Num 1])%nat /\
  length (vertices (triangulateLine [Num 0; Num 0; Num 1; Num 0; Num 1; Num 1]
                                    (Num 1) emptyBuffers true false)) =
  (0 + 3 * (2 * 3 + 10 * 1))%nat.
Proof.
  split; [simpl; lia |].
  apply (triangulateLine_counts [Num 0; Num 0; Num 1; Num 0; Num 1; Num 1]
           (Num 1) emptyBuffers true false).
  simpl; lia.
Defined.

Lemma Forall_flat_map_seq {B : Type} (P : B -> Prop) (f : nat -> list B)
    (n : nat) :
  (forall i : nat, (i < n)%nat -> Forall P (f i)) ->
  Forall P (flat_map f (seq 0 n)).
Proof.
  intros H. apply List.Forall_flat_map. apply List.Forall_forall.
  intros i Hi. apply List.in_seq in Hi. apply H. lia.
Qed.

Lemma capTriangle_valid (nv i : nat) :
  (i < 9)%nat ->
  Forall (fun k => exists j : nat, k = of_nat j /\ (j < nv + 10)%nat)
         (capTriangle (of_nat nv) i).
Proof.
  intros Hi. unfold capTriangle, of_nat, SECTORS_IN_CIRCLE.
  cbn [add lift2].
  pose proof (Nat.mod_upper_bound (i + 1) (8 + 1) ltac:(lia)) as Hm.
  constructor; [| constructor; [| constructor; [| constructor]]].
  - exists nv. split; [reflexivity | lia].
  - exists (nv + i + 1)%nat. split; [| lia].
    rewrite !plus_INR. reflexivity.
  - exists (nv + (i + 1) mod (8 + 1) + 1)%nat. split; [| lia].
    rewrite !plus_INR. reflexivity.
Qed.

Lemma segmentTriangles_valid (nv i segments : nat) :
  (i < segments)%nat ->
  Forall (fun k => exists j : nat,
            k = of_nat j /\ (j < nv + 2 * (segments + 1))%nat)
         (segmentTriangles (of_nat nv) i).
Proof.
  intros Hi. unfold segmentTriangles, POINTS. cbn [map].
  assert (Hone : forall o : nat, (o <= 3)%nat ->
            exists j : nat,
              add (add (of_nat nv) (mul (of_nat i) (Num 2))) (of_nat o)
                = of_nat j /\ (j < nv + 2 * (segments + 1))%nat).
  { intros o Ho. exists (nv + i * 2 + o)%nat. split; [| lia].
    unfold of_nat. cbn [add mul lift2].
    rewrite !plus_INR, mult_INR. simpl (INR 2). reflexivity. }
  repeat (constructor; [apply Hone; lia |]). constructor.
Qed.

Lemma wellFormed_weaken (nv nv' : nat) (ixs : list number) :
  (nv <= nv')%nat ->
  Forall (fun k => exists j : nat, k = of_nat j /\ (j < nv)%nat) ixs ->
  Forall (fun k => exists j : nat, k = of_nat j /\ (j < nv')%nat) ixs.
Proof.
  intros Hle. apply List.Forall_impl.
  intros k (j & Hk & Hj). exists j. split; [exact Hk | lia].
Qed.

Lemma addCircle_wellFormed (cx cy lineAngle radius : number) (nv : nat)
    (b : Buffers) :
  wellFormed nv b -> wellFormed (nv + 10) (addCircle cx cy lineAngle radius b).
Proof.
  intros [Hlen Hix]. rewrite addCircle_general, Hlen, of_nat_div3.
  split; cbn [vertices indices].
  - rewrite !length_app, (length_flat_map_chunks _ 3) by reflexivity.
    cbn [length seq]. lia.
  - apply Forall_app. split.
    + apply (wellFormed_weaken nv); [lia | exact Hix].
    + apply Forall_flat_map_seq. intros i Hi. now apply capTriangle_valid.
Qed.

Lemma stroke_wellFormed (points : list number) (width : number) (nv : nat)
    (b : Buffers) :
  (2 <= length points)%nat ->
  wellFormed nv b ->
  wellFormed (nv + 2 * ((length points + 1) / 2))
             (triangulateLine points width b false false).
Proof.
  intros Hlen [Hv Hix]. rewrite triangulateLine_stroke by exact Hlen.
  rewrite Hv, of_nat_div3.
  assert (Hseg : ((length points + 1) / 2 = (length points - 1) / 2 + 1)%nat).
  { pose proof (Nat.div_mod_eq (length points - 1) 2).
    pose proof (Nat.mod_upper_bound (length points - 1) 2).
    pose proof (Nat.div_mod_eq (length points + 1) 2).
    pose proof (Nat.mod_upper_bound (length points + 1) 2).
    lia. }
  split; cbn [vertices indices].
  - rewrite length_app, (length_flat_map_chunks _ 6) by reflexivity.
    rewrite length_seq. lia.
  - apply Forall_app. split.
    + apply (wellFormed_weaken nv); [lia | exact Hix].
    + apply Forall_flat_map_seq. intros i Hi. rewrite Hseg.
      now apply segmentTriangles_valid.
Qed.

(** X3.  [triangulateLine] keeps the buffers well formed: if the vertex
    buffer holds whole vertices and every index names one of them before the
    call, then so it is after the call, for every input, width and flags, and
    every index the call appends names a vertex present once it returns. *)
Theorem triangulateLine_wellFormed (points : list number) (width : number)
    (b : Buffers) (startWithCircle endWithCircle : bool) (nv : nat) :
  wellFormed nv b ->
  wellFormed (nv + verticesAdded points startWithCircle endWithCircle)
             (triangulateLine points width b startWithCircle endWithCircle).
Proof.
  intros Hwf. unfold verticesAdded.
  destruct (Nat.ltb_spec (length points) 2) as [Hshort | Hlen].
  { rewrite triangulateLine_short by exact Hshort.
    now rewrite Nat.add_0_r. }
  rewrite triangulateLine_caps by exact Hlen. cbv zeta.
  set (b1 := if startWithCircle then _ else b).
  assert (H1 : wellFormed (nv + if startWithCircle then 10 else 0) b1).
  { unfold b1. destruct startWithCircle.
    - now apply addCircle_wellFormed.
    - now rewrite Nat.add_0_r. }
  pose proof (stroke_wellFormed points width _ b1 Hlen H1) as H2.
  destruct endWithCircle.
  - match goal with |- context [addCircle ?cx ?cy ?t ?r ?b0] =>
      pose proof (addCircle_wellFormed cx cy t r _ b0 H2) as H3 end.
    match type of H3 with wellFormed ?m _ =>
      match goal with |- wellFormed ?n _ =>
        replace n with m by (destruct startWithCircle; lia) end end.
    exact H3.
  - match type of H2 with wellFormed ?m _ =>
      match goal with |- wellFormed ?n _ =>
        replace n with m by (destruct startWithCircle; lia) end end.
    exact H2.
Qed.

Lemma triangulateLine_wellFormed_witness :
  wellFormed 0 emptyBuffers /\
  wellFormed (0 + verticesAdded [Num 0; Num 0; Num 1; Num 0] true true)
             (triangulateLine [Num 0; Num 0; Num 1; Num 0] (Num 1)
                              emptyBuffers true true).
Proof.
  assert (H0 : wellFormed 0 emptyBuffers).
  { split; [reflexivity | constructor]. }
  split; [exact H0 |].
  apply (triangulateLine_wellFormed [Num 0; Num 0; Num 1; Num 0] (Num 1)
           emptyBuffers true true 0).
  exact H0.
Defined.

Lemma segmentTriangles_quad (nv i : nat) :
  segmentTriangles (of_nat nv) i = quadIndices nv i.
Proof.
  assert (Hone : forall o : nat,
            add (add (of_nat nv) (mul (of_nat i) (Num 2))) (of_nat o) =
            of_nat (nv + 2 * i + o)).
  { intros o. unfold of_nat. cbn [add mul lift2]. f_equal.
    rewrite !plus_INR, mult_INR. simpl (INR 2). lra. }
  unfold segmentTriangles, quadIndices, POINTS. cbn [map]. rewrite !Hone.
  repeat (f_equal; try lia).
Qed.

(** X4.  Without caps, on a vertex buffer that holds [nv] whole vertices,
    [triangulateLine] appends for every segment [i] the two triangles
    [(2i, 2i+1, 2i+2)] and [(2i+1, 2i+3, 2i+2)], counted from [nv]: a quad
    over the vertex pairs of the points [i] and [i + 1]. *)
Theorem triangulateLine_quads (points : list number) (width : number)
    (b : Buffers) (nv : nat) :
  (2 <= length points)%nat ->
  length (vertices b) = (3 * nv)%nat ->
  indices (triangulateLine points width b false false) =
  indices b ++ flat_map (quadIndices nv)
                        (seq 0 ((length points + 1) / 2 - 1)).
Proof.
  intros Hlen Hnv. rewrite triangulateLine_stroke by exact Hlen.
  cbn [indices]. rewrite Hnv, of_nat_div3. f_equal.
  replace ((length points - 1) / 2)%nat with ((length points + 1) / 2 - 1)%nat.
  - apply flat_map_ext. intros i. apply segmentTriangles_quad.
  - pose proof (Nat.div_mod_eq (length points - 1) 2).
    pose proof (Nat.mod_upper_bound (length points - 1) 2).
    pose proof (Nat.div_mod_eq (length points + 1) 2).
    pose proof (Nat.mod_upper_bound (length points + 1) 2).
    lia.
Qed.

Lemma triangulateLine_quads_witness :
  (2 <= length scenarioPoints)%nat /\
  length (vertices emptyBuffers) = (3 * 0)%nat /\
  indices (triangulateLine scenarioPoints (Num 2) emptyBuffers false false) =
  [] ++ flat_map (quadIndices 0) (seq 0 ((length scenarioPoints + 1) / 2 - 1)).
Proof.
  split; [simpl; lia |]. split; [reflexivity |].
  apply (triangulateLine_quads scenarioPoints (Num 2) emptyBuffers 0);
    [simpl; lia | reflexivity].
Defined.

(** ** Further properties: reconstruction behind other geometry *)

Lemma stroke_split (pts : list (R * R)) (w : number) (b : Buffers)
    (startWithCircle endWithCircle : bool) :
  (1 <= length pts)%nat ->
  exists before after : list number,
    vertices (triangulateLine (flatten pts) w b startWithCircle endWithCircle) =
      before ++ flat_map (offsetPair (flatten pts) w) (seq 0 (length pts))
             ++ after /\
    length before =
      (length (vertices b) + if startWithCircle then 30 else 0)%nat.
Proof.
  intros Hn.
  rewrite triangulateLine_caps by (rewrite length_flatten; lia). cbv zeta.
  set (b1 := if startWithCircle then _ else b).
  assert (H1 : length (vertices b1) =
               (length (vertices b) + if startWithCircle then 30 else 0)%nat).
  { unfold b1. destruct startWithCircle;
      [exact (proj1 (addCircle_lengths _ _ _ _ _)) | lia]. }
  destruct endWithCircle.
  - match goal with |- context [addCircle ?cx ?cy ?t ?r ?b0] =>
      destruct (addCircle_appends cx cy t r b0) as [[vs Hvs] _] end.
    rewrite Hvs, stroke_vertices_flatten by exact Hn.
    exists (vertices b1), vs. now rewrite <- app_assoc.
  - rewrite stroke_vertices_flatten by exact Hn.
    exists (vertices b1), []. now rewrite app_nil_r.
Qed.

Lemma lookup_middle {A : Type} (before mid after : list A) (j : nat) :
  (j < length mid)%nat ->
  (before ++ mid ++ after) !! (length before + j)%nat = mid !! j.
Proof.
  intros Hj. rewrite lookup_app_r by lia.
  replace (length before + j - length before)%nat with j by lia.
  now apply lookup_app_l.
Qed.

Lemma midpoint_middle (before mid after : list number) (m k c : nat) :
  length before = (6 * m)%nat -> (6 * k + 3 + c < length mid)%nat ->
  midpoint (before ++ mid ++ after) (m + k) c = midpoint mid k c.
Proof.
  intros Hb Hk. unfold midpoint, get.
  replace (6 * (m + k) + 3 + c)%nat with (length before + (6 * k + 3 + c))%nat
    by lia.
  replace (6 * (m + k) + c)%nat with (length before + (6 * k + c))%nat by lia.
  now rewrite !lookup_middle by lia.
Qed.

Lemma reconstructLineWidth_middle (before mid after : list number) (m k : nat) :
  length before = (6 * m)%nat -> (6 * k + 5 < length mid)%nat ->
  reconstructLineWidth (before ++ mid ++ after) (3 * (m + k)) =
  reconstructLineWidth mid (3 * k).
Proof.
  intros Hb Hk. unfold reconstructLineWidth, get.
  replace (3 * (m + k) * 2 + 3 + 1)%nat
    with (length before + (3 * k * 2 + 3 + 1))%nat by lia.
  replace (3 * (m + k) * 2 + 3 + 2)%nat
    with (length before + (3 * k * 2 + 3 + 2))%nat by lia.
  replace (3 * (m + k) * 2 + 3)%nat
    with (length before + (3 * k * 2 + 3))%nat by lia.
  replace (3 * (m + k) * 2 + 1)%nat
    with (length before + (3 * k * 2 + 1))%nat by lia.
  replace (3 * (m + k) * 2 + 2)%nat
    with (length before + (3 * k * 2 + 2))%nat by lia.
  replace (3 * (m + k) * 2)%nat
    with (length before + (3 * k * 2))%nat by lia.
  now rewrite !lookup_middle by lia.
Qed.

Lemma length_stroke (pts : list (R * R)) (w : number) :
  length (flat_map (offsetPair (flatten pts) w) (seq 0 (length pts))) =
  (6 * length pts)%nat.
Proof.
  rewrite (length_flat_map_chunks _ 6) by reflexivity. now rewrite length_seq.
Qed.

(** X7.  When [startOffset] lies at or past the end of the output, which
    includes an empty input, [reconstructLine] returns a buffer of zeros of
    half the length of its input: nothing is read and nothing is written. *)
Theorem reconstructLine_past_end (inBuffer : list number) (startOffset : nat) :
  (length inBuffer / 2 <= 3 * startOffset)%nat ->
  reconstructLine inBuffer startOffset =
  replicate (length inBuffer / 2) (Num 0).
Proof.
  intros Hs. apply list_eq. intros j.
  destruct (Nat.lt_ge_cases j (length inBuffer / 2)) as [Hj | Hj].
  - rewrite lookup_reconstructLine by exact Hj.
    rewrite lookup_replicate_2 by exact Hj.
    destruct (Nat.ltb_spec j (3 * startOffset)); [reflexivity | lia].
  - rewrite !lookup_ge_None_2; [reflexivity | |].
    + now rewrite length_replicate.
    + now rewrite length_reconstructLine.
Qed.

Lemma reconstructLine_past_end_witness :
  (length [Num 1; Num 2; Num 3; Num 4; Num 5; Num 6] / 2 <= 3 * 1)%nat /\
  reconstructLine [Num 1; Num 2; Num 3; Num 4; Num 5; Num 6] 1 =
  [Num 0; Num 0; Num 0].
Proof.
  split; [simpl; lia |].
  apply (reconstructLine_past_end [Num 1; Num 2; Num 3; Num 4; Num 5; Num 6] 1).
  simpl; lia.
Defined.

(** ** Further properties: the geometry of the stroke *)

Lemma offsetDir_planar (pts : list (R * R)) (i : nat) :
  (i < length pts)%nat ->
  exists a b : R, offsetDir (flatten pts) i = vecR a b 0.
Proof.
  intros Hi. unfold offsetDir. rewrite length_flatten.
  destruct (Nat.ltb_spec (2 * (i + 1)) (2 * length pts)) as [Hs | Hs].
  - destruct i as [| j]; cbn [averagedDir].
    + rewrite segmentDir_flatten by lia. eauto.
    + rewrite !segmentDir_flatten by lia.
      rewrite add3_vecR, dot_vecR. cbn [sub mul lift2].
      rewrite multiplyScalar_vecR. eexists _, _.
      apply vecR_ext; [reflexivity | reflexivity | lra].
  - destruct i as [| j]; cbn [prevDirAt].
    + exists 0%R, 0%R. reflexivity.
    + rewrite segmentDir_flatten by lia. eauto.
Qed.

(** X8.  With width 0 every point is emitted twice, as [(x, y, 0)]: the
    stroke degenerates to its centerline and nothing is rejected. *)
Theorem triangulateLine_width_zero (pts : list (R * R)) (b : Buffers) :
  (1 <= length pts)%nat ->
  vertices (triangulateLine (flatten pts) (Num 0) b false false) =
  vertices b ++ flat_map (fun p => vertexOf p ++ vertexOf p) pts.
Proof.
  intros Hn. rewrite stroke_vertices_flatten by exact Hn. f_equal.
  apply list_eq. intros j.
  destruct (Nat.lt_ge_cases j (6 * length pts)) as [Hj | Hj].
  - pose proof (Nat.div_mod_eq j 6) as Hd.
    pose proof (Nat.mod_upper_bound j 6 ltac:(lia)) as Hm.
    assert (Hk : (j / 6 < length pts)%nat) by lia.
    rewrite Hd.
    rewrite lookup_stroke by lia.
    rewrite (lookup_flat_map_chunks _ 6 pts (j / 6) (j mod 6)
               (nthPoint pts (j / 6)))
      by (reflexivity || lia || now apply nthPoint_lookup).
    destruct (offsetDir_planar pts (j / 6) Hk) as (a & b0 & Hd0).
    rewrite (offsetPair_real pts 0 (j / 6) a b0 0 Hk Hd0).
    unfold vertexOf. cbn [app].
    destruct (j mod 6) as [| [| [| [| [| [| c]]]]]]; [| | | | | | lia];
      cbn [lookup list_lookup]; do 2 f_equal; lra.
  - rewrite !lookup_ge_None_2; [reflexivity | |].
    + rewrite (length_flat_map_chunks _ 6) by reflexivity. lia.
    + rewrite length_stroke. lia.
Qed.

Lemma triangulateLine_width_zero_witness :
  (1 <= length [(1, 2); (3, 4)]%R)%nat /\
  vertices (triangulateLine (flatten [(1, 2); (3, 4)]%R) (Num 0)
                            emptyBuffers false false) =
  [Num 1; Num 2; Num 0; Num 1; Num 2; Num 0;
   Num 3; Num 4; Num 0; Num 3; Num 4; Num 0].
Proof.
  split; [simpl; lia |].
  apply (triangulateLine_width_zero [(1, 2); (3, 4)]%R emptyBuffers).
  simpl; lia.
Defined.

Lemma flat_map_ext_In {A B : Type} (f g : A -> list B) (l : list A) :
  (forall a, In a l -> f a = g a) -> flat_map f l = flat_map g l.
Proof.
  induction l as [| a l IH]; intros H; cbn [flat_map]; [reflexivity |].
  rewrite (H a) by now left.
  rewrite IH; [reflexivity |]. intros a' Ha'. apply H. now right.
Qed.

(** X9.  A negative width mirrors the stroke: extruding with [- w] emits at
    every point the same two vertices as extruding with [w], in the other
    order. *)
Theorem triangulateLine_negative_width (pts : list (R * R)) (w : R)
    (b : Buffers) :
  (1 <= length pts)%nat ->
  vertices (triangulateLine (flatten pts) (Num (- w)) b false false) =
  vertices b ++
  flat_map (fun i => drop 3 (offsetPair (flatten pts) (Num w) i) ++
                     take 3 (offsetPair (flatten pts) (Num w) i))
           (seq 0 (length pts)).
Proof.
  intros Hn. rewrite stroke_vertices_flatten by exact Hn. f_equal.
  apply flat_map_ext_In. intros i Hi. apply List.in_seq in Hi.
  destruct (offsetDir_real pts i ltac:(lia)) as (a & b0 & c & Hd).
  rewrite !(offsetPair_real pts _ i a b0 c) by (lia || exact Hd).
  cbn [drop take app].
  repeat (f_equal; try lra).
Qed.

Lemma triangulateLine_negative_width_witness :
  (1 <= length [(0, 0); (10, 0)]%R)%nat /\
  vertices (triangulateLine (flatten [(0, 0); (10, 0)]%R) (Num (- 2))
                            emptyBuffers false false) =
  [] ++
  flat_map (fun i =>
              drop 3 (offsetPair (flatten [(0, 0); (10, 0)]%R) (Num 2) i) ++
              take 3 (offsetPair (flatten [(0, 0); (10, 0)]%R) (Num 2) i))
           (seq 0 (length [(0, 0); (10, 0)]%R)).
Proof.
  split; [simpl; lia |].
  apply (triangulateLine_negative_width [(0, 0); (10, 0)]%R 2 emptyBuffers).
  simpl; lia.
Defined.

Lemma planar_nil : planar [].
Proof. exists []. reflexivity. Qed.

Lemma planar_app (l1 l2 : list number) :
  planar l1 -> planar l2 -> planar (l1 ++ l2).
Proof.
  intros [a1 ->] [a2 ->]. exists (a1 ++ a2). now rewrite List.flat_map_app.
Qed.

Lemma planar_flat_map {A : Type} (f : A -> list number) (l : list A) :
  (forall a, In a l -> planar (f a)) -> planar (flat_map f l).
Proof.
  induction l as [| a l IH]; intros H; cbn [flat_map].
  - apply planar_nil.
  - apply planar_app.
    + apply H. now left.
    + apply IH. intros a' Ha'. apply H. now right.
Qed.

Lemma planar_triple (a b : number) : planar [a; b; Num 0].
Proof. exists [(a, b)]. reflexivity. Qed.

Lemma planar_cap (cx cy lineAngle radius : number) (b : Buffers) :
  exists cap : list number,
    vertices (addCircle cx cy lineAngle radius b) = vertices b ++ cap /\
    planar cap.
Proof.
  rewrite addCircle_general. cbn [vertices]. eexists. split; [reflexivity |].
  apply (planar_app [cx; cy; Num 0]); [apply planar_triple |].
  apply planar_flat_map. intros i _. apply planar_triple.
Qed.

Lemma planar_stroke (pts : list (R * R)) (w : R) :
  planar (flat_map (offsetPair (flatten pts) (Num w)) (seq 0 (length pts))).
Proof.
  apply planar_flat_map. intros i Hi. apply List.in_seq in Hi.
  destruct (offsetDir_planar pts i ltac:(lia)) as (a & b & Hd).
  rewrite (offsetPair_real pts w i a b 0 ltac:(lia) Hd).
  replace (0 * - w + 0)%R with 0%R by lra.
  replace (0 * w + 0)%R with 0%R by lra.
  apply (planar_app [_; _; _] [_; _; _]); apply planar_triple.
Qed.

(** X10.  The mesh is planar: for a polyline and a width over the reals,
    every vertex that [triangulateLine] appends, in the stroke and in the
    caps, has [z = 0]. *)
Theorem triangulateLine_planar (pts : list (R * R)) (w : R) (b : Buffers)
    (startWithCircle endWithCircle : bool) :
  exists added : list (number * number),
    vertices (triangulateLine (flatten pts) (Num w) b startWithCircle
                              endWithCircle) =
    vertices b ++ flat_map (fun p => [p.1; p.2; Num 0]) added.
Proof.
  assert (Hgoal : exists l,
    vertices (triangulateLine (flatten pts) (Num w) b startWithCircle
                              endWithCircle) = vertices b ++ l /\ planar l).
  { destruct (Nat.eq_dec (length pts) 0) as [Hz | Hz].
    { rewrite triangulateLine_short by (rewrite length_flatten; lia).
      exists []. rewrite app_nil_r. split; [reflexivity | apply planar_nil]. }
    rewrite triangulateLine_caps by (rewrite length_flatten; lia). cbv zeta.
    set (b1 := if startWithCircle then _ else b).
    assert (H1 : exists l1, vertices b1 = vertices b ++ l1 /\ planar l1).
    { unfold b1. destruct startWithCircle.
      - apply planar_cap.
      - exists []. rewrite app_nil_r. split; [reflexivity | apply planar_nil]. }
    destruct H1 as (l1 & Hv1 & Hp1).
    pose proof (stroke_vertices_flatten pts (Num w) b1 ltac:(lia)) as Hv2.
    pose proof (planar_stroke pts w) as Hp2.
    destruct endWithCircle.
    - match goal with |- context [addCircle ?cx ?cy ?t ?r ?b0] =>
        destruct (planar_cap cx cy t r b0) as (l3 & Hv3 & Hp3) end.
      rewrite Hv3, Hv2, Hv1. eexists. rewrite <- !app_assoc.
      split; [reflexivity |]. now repeat apply planar_app.
    - rewrite Hv2, Hv1. eexists. rewrite <- !app_assoc.
      split; [reflexivity |]. now apply planar_app. }
  destruct Hgoal as (l & Hv & [added ->]). now exists added.
Qed.

(** ** Directions of degenerate and of parallel segments *)

Lemma segmentDirR_same_point (p : R * R) : segmentDirR p p = (0, 0)%R.
Proof.
  unfold segmentDirR.
  replace (p.1 - p.1)%R with 0%R by lra.
  replace (p.2 - p.2)%R with 0%R by lra.
  pose proof (lengthOr1_pos 0 0 0) as Hs.
  f_equal; field; lra.
Qed.

Lemma segmentDirR_scale (a p q : R * R) (t : R) :
  (0 < t)%R -> a <> p ->
  (q.1 - p.1 = t * (p.1 - a.1))%R -> (q.2 - p.2 = t * (p.2 - a.2))%R ->
  segmentDirR p q = segmentDirR a p.
Proof.
  intros Ht Hne Hx Hy. unfold segmentDirR. rewrite Hx, Hy.
  set (dx := (p.1 - a.1)%R). set (dy := (p.2 - a.2)%R).
  assert (Hd : (0 < dx * dx + dy * dy + 0 * 0)%R).
  { destruct (Req_dec_T dx 0) as [Ex | Ex]; [| nra].
    destruct (Req_dec_T dy 0) as [Ey | Ey]; [| nra].
    exfalso. apply Hne. destruct a, p. unfold dx, dy in *.
    cbn [fst snd] in *. f_equal; lra. }
  pose proof (sqrt_lt_R0 _ Hd) as Hs.
  pose proof (sqrt_sqrt (dx * dx + dy * dy + 0 * 0) ltac:(lra)) as Hss.
  set (s := R_sqrt.sqrt (dx * dx + dy * dy + 0 * 0)) in *.
  rewrite (lengthOr1_eq dx dy 0 s) by lra.
  rewrite (lengthOr1_eq (t * dx) (t * dy) 0 (t * s)) by nra.
  f_equal; field; lra.
Qed.

(** ** Further properties: the geometry of the caps *)



Lemma rimAngle_ends (t : R) :
  (Rtrigo_def.cos (rimAngle t 0) = - Rtrigo_def.sin t /\
   Rtrigo_def.sin (rimAngle t 0) = Rtrigo_def.cos t /\
   Rtrigo_def.cos (rimAngle t 4) = - Rtrigo_def.cos t /\
   Rtrigo_def.sin (rimAngle t 4) = - Rtrigo_def.sin t /\
   Rtrigo_def.cos (rimAngle t 8) = Rtrigo_def.sin t /\
   Rtrigo_def.sin (rimAngle t 8) = - Rtrigo_def.cos t)%R.
Proof.
  unfold rimAngle.
  replace (Rtrigo1.PI / 8 * INR 0 + Rtrigo1.PI / 2 + t)%R
    with (Rtrigo1.PI / 2 + t)%R by (simpl; lra).
  replace (Rtrigo1.PI / 8 * INR 4 + Rtrigo1.PI / 2 + t)%R
    with (t + Rtrigo1.PI)%R by (simpl; lra).
  replace (Rtrigo1.PI / 8 * INR 8 + Rtrigo1.PI / 2 + t)%R
    with (Rtrigo1.PI / 2 + t + Rtrigo1.PI)%R by (simpl; lra).
  rewrite !neg_cos, !neg_sin.
  pose proof (sin_cos t) as H1. pose proof (cos_sin t) as H2.
  repeat split; lra.
Qed.

Lemma capRim_Num (cx cy lineAngle radius : R) (i : nat) :
  capRim (Num cx) (Num cy) (Num lineAngle) (Num radius) i =
  rimVertex cx cy lineAngle radius i.
Proof.
  assert (H8 : INR 8 = 8%R) by (simpl; lra).
  unfold capRim, STEP, PI, of_nat, SECTORS_IN_CIRCLE.
  rewrite !div_Num by lra.
  cbn [add mul lift2 cos sin lift1].
  unfold rimVertex, rimAngle. rewrite H8. reflexivity.
Qed.

Lemma addCircle_vertices_real (cx cy lineAngle radius : R) (b : Buffers) :
  vertices (addCircle (Num cx) (Num cy) (Num lineAngle) (Num radius) b) =
  vertices b ++ [Num cx; Num cy; Num 0] ++
  flat_map (rimVertex cx cy lineAngle radius) (seq 0 9).
Proof.
  rewrite addCircle_general. cbn [vertices]. do 2 f_equal.
  apply flat_map_ext. intros i. apply capRim_Num.
Qed.

(** X13.  A cap is a half disc: its first rim vertex, its middle one and its
    last one lie at the angles [lineAngle + PI / 2], [lineAngle + PI] and
    [lineAngle + 3 PI / 2], so the first and the last are the two ends of
    the diameter perpendicular to the incline direction, and the middle one
    lies opposite to the incline direction. *)
Theorem addCircle_half_disc (cx cy lineAngle radius : R) (b : Buffers) :
  exists rims1 rims2 : list number,
    length rims1 = 9%nat /\ length rims2 = 9%nat /\
    vertices (addCircle (Num cx) (Num cy) (Num lineAngle) (Num radius) b) =
    vertices b ++ [Num cx; Num cy; Num 0] ++
    [Num (cx - radius * Rtrigo_def.sin lineAngle);
     Num (cy + radius * Rtrigo_def.cos lineAngle); Num 0] ++
    rims1 ++
    [Num (cx - radius * Rtrigo_def.cos lineAngle);
     Num (cy - radius * Rtrigo_def.sin lineAngle); Num 0] ++
    rims2 ++
    [Num (cx + radius * Rtrigo_def.sin lineAngle);
     Num (cy - radius * Rtrigo_def.cos lineAngle); Num 0].
Proof.
  destruct (rimAngle_ends lineAngle) as (C0 & S0 & C4 & S4 & C8 & S8).
  exists (flat_map (rimVertex cx cy lineAngle radius) (seq 1 3)),
         (flat_map (rimVertex cx cy lineAngle radius) (seq 5 3)).
  split; [reflexivity |]. split; [reflexivity |].
  rewrite addCircle_vertices_real. do 2 f_equal.
  cbn [seq flat_map app]. unfold rimVertex at 1 5 9.
  rewrite C0, S0, C4, S4, C8, S8. cbn [app].
  rewrite !app_nil_r, <- !app_assoc.
  repeat (f_equal; try lra).
Qed.




(** ** Further properties: translation *)

Lemma nthPoint_translate (tx ty : R) (pts : list (R * R)) (i : nat) :
  (i < length pts)%nat ->
  nthPoint (translate tx ty pts) i =
  ((nthPoint pts i).1 + tx, (nthPoint pts i).2 + ty)%R.
Proof.
  intros Hi. unfold nthPoint, translate.
  set (f := fun p : R * R => (p.1 + tx, p.2 + ty)%R).
  rewrite (List.nth_indep _ _ (f (0, 0)%R)) by (rewrite length_map; exact Hi).
  exact (List.map_nth f pts (0, 0)%R i).
Qed.

Lemma segmentDirR_translate (tx ty : R) (p q : R * R) :
  segmentDirR (p.1 + tx, p.2 + ty)%R (q.1 + tx, q.2 + ty)%R = segmentDirR p q.
Proof.
  unfold segmentDirR. cbn [fst snd].
  replace (q.1 + tx - (p.1 + tx))%R with (q.1 - p.1)%R by lra.
  replace (q.2 + ty - (p.2 + ty))%R with (q.2 - p.2)%R by lra.
  reflexivity.
Qed.

Lemma segmentDir_translate (tx ty : R) (pts : list (R * R)) (i : nat) :
  (i + 1 < length pts)%nat ->
  segmentDir (flatten (translate tx ty pts)) i = segmentDir (flatten pts) i.
Proof.
  intros Hi.
  rewrite !segmentDir_flatten by (unfold translate; rewrite ?length_map; lia).
  rewrite !nthPoint_translate by lia.
  now rewrite segmentDirR_translate.
Qed.

Lemma offsetDir_translate (tx ty : R) (pts : list (R * R)) (i : nat) :
  (i < length pts)%nat ->
  offsetDir (flatten (translate tx ty pts)) i = offsetDir (flatten pts) i.
Proof.
  intros Hi. unfold offsetDir. rewrite !length_flatten.
  unfold translate at 1. rewrite length_map.
  destruct (Nat.ltb_spec (2 * (i + 1)) (2 * length pts)) as [Hs | Hs].
  - destruct i as [| j]; cbn [averagedDir].
    + now rewrite segmentDir_translate by lia.
    + now rewrite !segmentDir_translate by lia.
  - destruct i as [| j]; cbn [prevDirAt]; [reflexivity |].
    now rewrite segmentDir_translate by lia.
Qed.

(** X16.  Extrusion commutes with translation: moving the polyline by
    [(tx, ty)] moves every vertex of the stroke by [(tx, ty, 0)] and changes
    nothing else. *)
Theorem triangulateLine_translate (tx ty w : R) (pts : list (R * R))
    (b : Buffers) :
  (1 <= length pts)%nat ->
  vertices (triangulateLine (flatten (translate tx ty pts)) (Num w) b
                            false false) =
  vertices b ++
  flat_map (fun i => translatePair tx ty (offsetPair (flatten pts) (Num w) i))
           (seq 0 (length pts)) /\
  indices (triangulateLine (flatten (translate tx ty pts)) (Num w) b
                           false false) =
  indices (triangulateLine (flatten pts) (Num w) b false false).
Proof.
  intros Hn.
  assert (Hlen : length (translate tx ty pts) = length pts)
    by (unfold translate; now rewrite length_map).
  split.
  - rewrite stroke_vertices_flatten by lia. rewrite Hlen. f_equal.
    apply flat_map_ext_In. intros i Hi. apply List.in_seq in Hi.
    destruct (offsetDir_real pts i ltac:(lia)) as (a & b0 & c & Hd).
    rewrite (offsetPair_real (translate tx ty pts) w i a b0 c)
      by (lia || (rewrite offsetDir_translate by lia; exact Hd)).
    rewrite (offsetPair_real pts w i a b0 c) by (lia || exact Hd).
    rewrite nthPoint_translate by lia.
    unfold translatePair. cbn [zip_with add lift2 fst snd].
    repeat (f_equal; try lra).
  - rewrite !triangulateLine_stroke by (rewrite length_flatten; lia).
    cbn [indices]. now rewrite !length_flatten, Hlen.
Qed.

Lemma triangulateLine_translate_witness :
  (1 <= length [(0, 0); (10, 0)]%R)%nat /\
  indices (triangulateLine (flatten (translate 3 4 [(0, 0); (10, 0)]%R))
                           (Num 2) emptyBuffers false false) =
  indices (triangulateLine (flatten [(0, 0); (10, 0)]%R) (Num 2)
                           emptyBuffers false false).
Proof.
  split; [simpl; lia |].
  apply (triangulateLine_translate 3 4 2 [(0, 0); (10, 0)]%R emptyBuffers).
  simpl; lia.
Defined.

(** ** Further properties: degenerate caps and inputs *)

(** X17.  A cap of radius 0 is not rejected: its ten vertices all fall on
    the center. *)
Theorem addCircle_radius_zero (cx cy lineAngle : R) (b : Buffers) :
  vertices (addCircle (Num cx) (Num cy) (Num lineAngle) (Num 0) b) =
  vertices b ++ flat_map (fun _ => vertexOf (cx, cy)) (seq 0 10).
Proof.
  rewrite addCircle_vertices_real. f_equal.
  cbn [seq flat_map]. unfold rimVertex, vertexOf. cbn [app fst snd].
  repeat (f_equal; try lra).
Qed.

(** X18.  A single point with both caps yields a full disc: the start cap is
    built with incline angle 0, the end cap with incline angle PI, both
    around the point, and every rim vertex of the end cap is the reflection
    through the point of the rim vertex of the start cap with the same
    number. *)
Theorem single_point_disc (px py w : R) (b : Buffers) :
  vertices (triangulateLine [Num px; Num py] (Num w) b true true) =
    vertices b ++
    (vertexOf (px, py) ++ flat_map (rimVertex px py 0 w) (seq 0 9)) ++
    (vertexOf (px, py) ++ vertexOf (px, py)) ++
    (vertexOf (px, py) ++ flat_map (rimVertex px py Rtrigo1.PI w) (seq 0 9)) /\
  forall i : nat,
    rimVertex px py Rtrigo1.PI w i =
    [Num (2 * px - (px + w * Rtrigo_def.cos (rimAngle 0 i)));
     Num (2 * py - (py + w * Rtrigo_def.sin (rimAngle 0 i)));
     Num 0].
Proof.
  split.
  - change [Num px; Num py] with (flatten [(px, py)]).
    rewrite triangulateLine_caps by (simpl; lia). cbv zeta.
    change (startLineAngle (flatten [(px, py)])) with (Num 0).
    change (endLineAngle (flatten [(px, py)])
              (div (of_nat (length (flatten [(px, py)]))) (Num 2))) with PI.
    change (get (flatten [(px, py)]) 0) with (Num px).
    change (get (flatten [(px, py)]) 1) with (Num py).
    unfold of_nat. rewrite div_Num by lra. cbn [sub mul add lift2].
    destruct (getN_from_end [(px, py)] 1 _ ltac:(simpl; lia) eq_refl)
      as [Hx Hy].
    simpl (INR 1) in Hx, Hy. rewrite Hx, Hy.
    change (nthPoint [(px, py)] (length [(px, py)] - 1)) with (px, py).
    cbn [fst snd]. unfold PI.
    change (flatten [(px, py)]) with [Num px; Num py].
    rewrite addCircle_vertices_real, triangulateLine_single_point.
    cbn [vertices]. rewrite addCircle_vertices_real.
    unfold vertexOf. cbn [fst snd]. rewrite <- !app_assoc. reflexivity.
  - intros i. unfold rimVertex.
    replace (rimAngle Rtrigo1.PI i) with (rimAngle 0 i + Rtrigo1.PI)%R
      by (unfold rimAngle; lra).
    rewrite neg_cos, neg_sin. repeat (f_equal; try lra).
Qed.

Lemma add_NaN_r (a : number) : add a NaN = NaN.
Proof. now destruct a. Qed.

(** X19.  An input of odd length is not cut to whole points: its last
    number is read as the x of one more point whose y is missing, so two more
    vertices are appended and their y coordinates are [NaN]. *)
Theorem triangulateLine_odd_input (pts : list (R * R)) (extra : R) (w : number)
    (b : Buffers) :
  (1 <= length pts)%nat ->
  let v := vertices (triangulateLine (flatten pts ++ [Num extra]) w b
                                     false false) in
  let n := length pts in
  length v = (length (vertices b) + 6 * (n + 1))%nat /\
  v !! (length (vertices b) + 6 * n + 1)%nat = Some NaN /\
  v !! (length (vertices b) + 6 * n + 4)%nat = Some NaN.
Proof.
  intros Hn v n.
  assert (Hlen : length (flatten pts ++ [Num extra]) = (2 * n + 1)%nat).
  { rewrite length_app, length_flatten. simpl. unfold n. lia. }
  assert (Hiter : ((length (flatten pts ++ [Num extra]) + 1) / 2 = n + 1)%nat).
  { rewrite Hlen. symmetry. apply (Nat.div_unique _ 2 _ 0); lia. }
  assert (Hv : v = vertices b ++
                   flat_map (offsetPair (flatten pts ++ [Num extra]) w)
                            (seq 0 (n + 1))).
  { unfold v. rewrite triangulateLine_stroke by (rewrite Hlen; lia).
    cbn [vertices]. now rewrite Hiter. }
  assert (Hy : get (flatten pts ++ [Num extra]) (n * 2 + 1) = NaN).
  { unfold get. rewrite lookup_ge_None_2 by (rewrite Hlen; lia). reflexivity. }
  assert (Hpair : forall c : nat, (c < 6)%nat ->
            v !! (length (vertices b) + (6 * n + c))%nat =
            offsetPair (flatten pts ++ [Num extra]) w n !! c).
  { intros c Hc. rewrite Hv, lookup_app_r by lia.
    replace (length (vertices b) + (6 * n + c) - length (vertices b))%nat
      with (6 * n + c)%nat by lia.
    apply lookup_flat_map_chunks; [reflexivity | exact Hc |].
    rewrite lookup_seq_lt by lia. reflexivity. }
  split; [| split].
  - rewrite Hv, length_app, (length_flat_map_chunks _ 6) by reflexivity.
    rewrite length_seq. lia.
  - replace (length (vertices b) + 6 * n + 1)%nat
      with (length (vertices b) + (6 * n + 1))%nat by lia.
    rewrite Hpair by lia. unfold offsetPair, pointAt, add3, coords.
    cbn [x y z app lookup list_lookup]. now rewrite Hy, add_NaN_r.
  - replace (length (vertices b) + 6 * n + 4)%nat
      with (length (vertices b) + (6 * n + 4))%nat by lia.
    rewrite Hpair by lia. unfold offsetPair, pointAt, add3, coords.
    cbn [x y z app lookup list_lookup]. now rewrite Hy, add_NaN_r.
Qed.

Lemma triangulateLine_odd_input_witness :
  (1 <= length [(0, 0); (1, 0)]%R)%nat /\
  length (vertices (triangulateLine (flatten [(0, 0); (1, 0)]%R ++ [Num 5])
                                    (Num 1) emptyBuffers false false)) =
  (length (vertices emptyBuffers) + 6 * (length [(0, 0); (1, 0)]%R + 1))%nat.
Proof.
  split; [simpl; lia |].
  apply (triangulateLine_odd_input [(0, 0); (1, 0)]%R 5 (Num 1) emptyBuffers).
  simpl; lia.
Defined.

(** ** Narrowing to binary32 *)

Section Narrowing.

Local Open Scope R_scope.

Lemma Rabs_bounds (x b : R) : Rabs x <= b -> - b <= x <= b.
Proof. unfold Rabs. destruct (Rcase_abs x); lra. Qed.

Lemma Rabs_from_bounds (x b : R) : - b <= x <= b -> Rabs x <= b.
Proof. intros H. apply Rabs_le. exact H. Qed.

(** The midpoint of the narrowed numbers [x - t] and [x + t], narrowed in its
    turn, is within two narrowing errors of [x]. *)
Lemma narrowed_midpoint_error (f : R -> R) (x t : R) :
  roundsToNearest32 f ->
  Rabs x + Rabs t <= 2 ^ 125 ->
  Rabs (f (f (x - t) + (f (x + t) - f (x - t)) * (1 / 2)) - x) <=
  (Rabs x + Rabs t) / 2 ^ 22 + / 2 ^ 148.
Proof.
  intros [_ Herr] HM.
  set (M := Rabs x + Rabs t) in *.
  assert (Hp125 : 0 < 2 ^ 125) by (apply pow_lt; lra).
  assert (E127 : 2 ^ 127 = 4 * 2 ^ 125) by (simpl; lra).
  assert (E24 : 2 ^ 24 = 4 * 2 ^ 22) by (simpl; lra).
  assert (E150 : 2 ^ 150 = 4 * 2 ^ 148) by (simpl; lra).
  assert (Hp22 : 0 < 2 ^ 22) by (apply pow_lt; lra).
  assert (Hp148 : 0 < 2 ^ 148) by (apply pow_lt; lra).
  assert (H22 : 4 <= 2 ^ 22) by (simpl; lra).
  assert (H148 : 1 <= 2 ^ 148) by (apply pow_R1_Rle; lra).
  set (u := / 2 ^ 22) in *. set (h := / 2 ^ 148) in *.
  assert (Hu : 0 < u <= / 4).
  { split; [apply Rinv_0_lt_compat; lra |].
    apply Rinv_le_contravar; lra. }
  assert (Hh : 0 < h <= 1).
  { split; [apply Rinv_0_lt_compat; lra |].
    rewrite <- Rinv_1. apply Rinv_le_contravar; lra. }
  assert (Hq : forall y, Rabs y <= 2 ^ 127 ->
             Rabs (f y - y) <= Rabs y * (u / 4) + h / 4).
  { intros y Hy. pose proof (Herr y Hy) as H. rewrite E24, E150 in H.
    unfold u, h. unfold Rdiv in *. rewrite !Rinv_mult in H. lra. }
  pose proof (Rabs_pos x) as Hx0. pose proof (Rabs_pos t) as Ht0.
  assert (HM0 : 0 <= M) by (unfold M; lra).
  assert (HV0 : Rabs (x - t) <= M).
  { unfold M. unfold Rminus. eapply Rle_trans; [apply Rabs_triang |].
    rewrite Rabs_Ropp. lra. }
  assert (HV1 : Rabs (x + t) <= M).
  { unfold M. apply Rabs_triang. }
  assert (Hr0 : Rabs (x - t) <= 2 ^ 127) by lra.
  assert (Hr1 : Rabs (x + t) <= 2 ^ 127) by lra.
  pose proof (Hq (x - t) Hr0) as E0.
  pose proof (Hq (x + t) Hr1) as E1.
  set (F0 := f (x - t)) in *. set (F1 := f (x + t)) in *.
  set (mid := F0 + (F1 - F0) * (1 / 2)).
  assert (HuM : 0 <= M * u <= M / 4) by nra.
  assert (HxM : Rabs x <= M) by (unfold M; lra).
  assert (Hmid : Rabs (mid - x) <= M * (u / 4) + h / 4).
  { apply Rabs_bounds in E0. apply Rabs_bounds in E1.
    apply Rabs_from_bounds. unfold mid. nra. }
  assert (Hhu : 0 <= h * u <= h / 4) by nra.
  assert (HmidM : Rabs mid <= 2 * M + h).
  { replace mid with ((mid - x) + x) by lra.
    eapply Rle_trans; [apply Rabs_triang |]. lra. }
  assert (Hr2 : Rabs mid <= 2 ^ 127) by lra.
  pose proof (Hq mid Hr2) as E2.
  replace (f mid - x) with ((f mid - mid) + (mid - x)) by lra.
  eapply Rle_trans; [apply Rabs_triang |].
  fold M. unfold Rdiv. fold u.
  assert (HuM2 : Rabs mid * (u / 4) <= (2 * M + h) * (u / 4))
    by (apply Rmult_le_compat_r; lra).
  lra.
Qed.

Lemma norm_triangle (A B e f : R) :
  R_sqrt.sqrt ((A + e) * (A + e) + (B + f) * (B + f)) <=
  R_sqrt.sqrt (A * A + B * B) + Rabs e + Rabs f.
Proof.
  set (N := R_sqrt.sqrt (A * A + B * B)).
  assert (HN0 : 0 <= N) by apply sqrt_pos.
  assert (HNN : N * N = A * A + B * B) by (apply sqrt_sqrt; nra).
  pose proof (Rabs_pos e) as He0. pose proof (Rabs_pos f) as Hf0.
  assert (HNA : - N <= A <= N) by (split; nra).
  assert (HNB : - N <= B <= N) by (split; nra).
  assert (Hee : Rabs e * Rabs e = e * e).
  { rewrite <- Rabs_mult. apply Rabs_pos_eq. nra. }
  assert (Hff : Rabs f * Rabs f = f * f).
  { rewrite <- Rabs_mult. apply Rabs_pos_eq. nra. }
  assert (HAe : - (N * Rabs e) <= A * e <= N * Rabs e).
  { pose proof (Rabs_bounds e (Rabs e) ltac:(lra)) as Hb.
    split; nra. }
  assert (HBf : - (N * Rabs f) <= B * f <= N * Rabs f).
  { pose proof (Rabs_bounds f (Rabs f) ltac:(lra)) as Hb.
    split; nra. }
  rewrite <- (sqrt_square (N + Rabs e + Rabs f)) by lra.
  apply sqrt_le_1_alt. nra.
Qed.

(** The length of a plane vector moves by at most the sum of the changes of
    its two components. *)
Lemma norm_perturb (A B e f : R) :
  Rabs (R_sqrt.sqrt ((A + e) * (A + e) + (B + f) * (B + f)) -
        R_sqrt.sqrt (A * A + B * B)) <=
  Rabs e + Rabs f.
Proof.
  apply Rabs_from_bounds. split.
  - pose proof (norm_triangle (A + e) (B + f) (- e) (- f)) as H.
    replace (A + e + - e) with A in H by lra.
    replace (B + f + - f) with B in H by lra.
    rewrite !Rabs_Ropp in H. lra.
  - pose proof (norm_triangle A B e f). lra.
Qed.

(** The difference of the narrowed numbers [x + t] and [x - t] is within two
    narrowing errors of [2 t]. *)
Lemma narrowed_difference_error (f : R -> R) (x t : R) :
  roundsToNearest32 f ->
  Rabs x + Rabs t <= 2 ^ 125 ->
  Rabs (f (x + t) - f (x - t) - 2 * t) <=
  2 * ((Rabs x + Rabs t) / 2 ^ 24 + / 2 ^ 150).
Proof.
  intros [_ Herr] HM.
  set (M := Rabs x + Rabs t) in *.
  assert (Hp125 : 0 < 2 ^ 125) by (apply pow_lt; lra).
  assert (E127 : 2 ^ 127 = 4 * 2 ^ 125) by (simpl; lra).
  assert (Hp24 : 0 < / 2 ^ 24) by (apply Rinv_0_lt_compat, pow_lt; lra).
  pose proof (Rabs_pos x) as Hx0. pose proof (Rabs_pos t) as Ht0.
  assert (HV0 : Rabs (x - t) <= M).
  { unfold M. unfold Rminus. eapply Rle_trans; [apply Rabs_triang |].
    rewrite Rabs_Ropp. lra. }
  assert (HV1 : Rabs (x + t) <= M).
  { unfold M. apply Rabs_triang. }
  pose proof (Herr (x - t) ltac:(lra)) as E0.
  pose proof (Herr (x + t) ltac:(lra)) as E1.
  assert (B0 : Rabs (x - t) / 2 ^ 24 <= M / 2 ^ 24)
    by (unfold Rdiv; apply Rmult_le_compat_r; lra).
  assert (B1 : Rabs (x + t) / 2 ^ 24 <= M / 2 ^ 24)
    by (unfold Rdiv; apply Rmult_le_compat_r; lra).
  apply Rabs_bounds in E0. apply Rabs_bounds in E1.
  apply Rabs_from_bounds. lra.
Qed.

(** Half the distance of the narrowed vertices [(x - a w, y - b w)] and
    [(x + a w, y + b w)] is within the width tolerance of [w] times the
    length of [(a, b)]. *)
Lemma narrowed_width_error (f : R -> R) (px py a b w : R) :
  roundsToNearest32 f -> 0 <= w ->
  Rabs a <= 4 -> Rabs b <= 4 ->
  inRange32 w (px, py) ->
  let xd := f (a * w + px) - f (a * - w + px) in
  let yd := f (b * w + py) - f (b * - w + py) in
  Rabs (R_sqrt.sqrt (xd * xd + yd * yd + 0 * 0) * (1 / 2) -
        w * R_sqrt.sqrt (a * a + b * b + 0 * 0)) <=
  widthTolerance32 w (px, py).
Proof.
  intros Hf Hw Ha Hb [Hrx Hry] xd yd. cbn [fst snd] in Hrx, Hry.
  unfold widthTolerance32. cbn [fst snd].
  rewrite (Rabs_pos_eq w) in * by exact Hw.
  pose proof (Rabs_pos px) as Hpx. pose proof (Rabs_pos py) as Hpy.
  assert (Hta : Rabs (a * w) <= 4 * w).
  { rewrite Rabs_mult, (Rabs_pos_eq w) by exact Hw.
    apply Rmult_le_compat_r; lra. }
  assert (Htb : Rabs (b * w) <= 4 * w).
  { rewrite Rabs_mult, (Rabs_pos_eq w) by exact Hw.
    apply Rmult_le_compat_r; lra. }
  pose proof (narrowed_difference_error f px (a * w) Hf ltac:(lra)) as Ex.
  pose proof (narrowed_difference_error f py (b * w) Hf ltac:(lra)) as Ey.
  replace (px + a * w) with (a * w + px) in Ex by lra.
  replace (px - a * w) with (a * - w + px) in Ex by lra.
  replace (py + b * w) with (b * w + py) in Ey by lra.
  replace (py - b * w) with (b * - w + py) in Ey by lra.
  fold xd in Ex. fold yd in Ey.
  set (e := xd - 2 * (a * w)) in *. set (g := yd - 2 * (b * w)) in *.
  assert (Hp24 : 0 < / 2 ^ 24) by (apply Rinv_0_lt_compat, pow_lt; lra).
  assert (Hp150 : 0 < / 2 ^ 150) by (apply Rinv_0_lt_compat, pow_lt; lra).
  assert (E23 : / 2 ^ 23 = 2 * / 2 ^ 24).
  { change (2 ^ 24) with (2 * 2 ^ 23). rewrite Rinv_mult. lra. }
  assert (E148 : / 2 ^ 148 = 4 * / 2 ^ 150).
  { change (2 ^ 150) with (2 * (2 * 2 ^ 148)). rewrite !Rinv_mult. lra. }
  assert (Hxa : (Rabs px + Rabs (a * w)) / 2 ^ 24 <=
                (Rabs px + 4 * w) / 2 ^ 24)
    by (unfold Rdiv; apply Rmult_le_compat_r; lra).
  assert (Hyb : (Rabs py + Rabs (b * w)) / 2 ^ 24 <=
                (Rabs py + 4 * w) / 2 ^ 24)
    by (unfold Rdiv; apply Rmult_le_compat_r; lra).
  pose proof (norm_perturb (2 * (a * w)) (2 * (b * w)) e g) as Hn.
  replace (2 * (a * w) + e) with xd in Hn by (unfold e; lra).
  replace (2 * (b * w) + g) with yd in Hn by (unfold g; lra).
  assert (Hs : R_sqrt.sqrt (2 * (a * w) * (2 * (a * w)) +
                            2 * (b * w) * (2 * (b * w))) =
               2 * (w * R_sqrt.sqrt (a * a + b * b))).
  { replace (2 * (a * w) * (2 * (a * w)) + 2 * (b * w) * (2 * (b * w)))
      with ((2 * w) * (2 * w) * (a * a + b * b)) by ring.
    rewrite sqrt_mult_alt by nra.
    rewrite sqrt_square by lra. ring. }
  rewrite Hs in Hn.
  replace (xd * xd + yd * yd + 0 * 0) with (xd * xd + yd * yd) by ring.
  replace (a * a + b * b + 0 * 0) with (a * a + b * b) by ring.
  apply Rabs_bounds in Hn. apply Rabs_from_bounds.
  unfold Rdiv in *. rewrite E23, E148. lra.
Qed.

End Narrowing.

(** ** Reconstruction from a Float32Array *)

Section Reconstruct32.

Variable f : R -> R.

Lemma get_toFloat32Array (v : list number) (i : nat) :
  get (toFloat32Array f v) i = narrow f (get v i).
Proof.
  unfold get, toFloat32Array. rewrite list_lookup_fmap.
  now destruct (v !! i).
Qed.

Lemma length_toFloat32Array (v : list number) :
  length (toFloat32Array f v) = length v.
Proof. apply length_fmap. Qed.

Lemma reconstructStep32_fmap (inBuffer outBuffer : list number) (i i2 : nat) :
  reconstructStep32 f inBuffer (narrow f <$> outBuffer) i i2 =
  narrow f <$> reconstructStep inBuffer outBuffer i i2.
Proof.
  unfold reconstructStep32, reconstructStep. now rewrite !list_fmap_insert.
Qed.

Lemma reconstructLoop32_fmap (fuel : nat) (inBuffer outBuffer : list number)
    (i i2 : nat) :
  reconstructLoop32 f fuel inBuffer (narrow f <$> outBuffer) i i2 =
  narrow f <$> reconstructLoop fuel inBuffer outBuffer i i2.
Proof.
  revert outBuffer i i2.
  induction fuel as [| fuel IH]; intros outBuffer i i2; [reflexivity |].
  cbn [reconstructLoop32 reconstructLoop]. rewrite length_fmap.
  destruct (i <? length outBuffer)%nat; [| reflexivity].
  now rewrite reconstructStep32_fmap, IH.
Qed.

(** [reconstructLine] on a [Float32Array] is [reconstructLine] with every
    slot of the result narrowed. *)
Lemma reconstructLine32_fmap (inBuffer : list number) (startOffset : nat) :
  f 0%R = 0%R ->
  reconstructLine32 f inBuffer startOffset =
  narrow f <$> reconstructLine inBuffer startOffset.
Proof.
  intros H0. unfold reconstructLine32, reconstructLine.
  rewrite <- reconstructLoop32_fmap, fmap_replicate, !length_replicate.
  cbn [narrow]. now rewrite H0.
Qed.

Lemma length_reconstructLine32 (inBuffer : list number) (startOffset : nat) :
  f 0%R = 0%R ->
  length (reconstructLine32 f inBuffer startOffset) =
  (length inBuffer / 2)%nat.
Proof.
  intros H0. now rewrite reconstructLine32_fmap, length_fmap,
    length_reconstructLine.
Qed.

Lemma lookup_reconstructLine32 (inBuffer : list number)
    (startOffset j : nat) :
  f 0%R = 0%R ->
  (j < length inBuffer / 2)%nat ->
  reconstructLine32 f inBuffer startOffset !! j =
  Some (if (j <? 3 * startOffset)%nat then Num 0
        else narrow f (midpoint inBuffer (j / 3) (j mod 3))).
Proof.
  intros H0 Hj.
  rewrite reconstructLine32_fmap, list_lookup_fmap, lookup_reconstructLine
    by assumption.
  destruct (j <? 3 * startOffset)%nat; cbn [fmap option_fmap option_map narrow];
    [now rewrite H0 | reflexivity].
Qed.

End Reconstruct32.

(** ** The offset directions are short *)

Section OffsetBounds.

Local Open Scope R_scope.

Lemma segmentDirR_bounded (p q : R * R) :
  Rabs (segmentDirR p q).1 <= 1 /\ Rabs (segmentDirR p q).2 <= 1.
Proof.
  unfold segmentDirR, lengthOr1. cbn [fst snd].
  set (dx := q.1 - p.1). set (dy := q.2 - p.2).
  set (l := R_sqrt.sqrt (dx * dx + dy * dy + 0 * 0)).
  assert (Hl0 : 0 <= l) by apply sqrt_pos.
  assert (Hll : l * l = dx * dx + dy * dy) by (unfold l; rewrite sqrt_sqrt; nra).
  destruct (Req_dec_T l 0) as [E | E].
  - assert (dx = 0) by nra. assert (dy = 0) by nra.
    replace (dy / 1) with 0 by lra. replace (- dx / 1) with 0 by lra.
    rewrite Rabs_R0. lra.
  - assert (Hl : 0 < l) by lra.
    assert (Hy : dy / l * l = dy) by (field; lra).
    assert (Hx : - dx / l * l = - dx) by (field; lra).
    assert (Hby : - l <= dy <= l) by (split; nra).
    assert (Hbx : - l <= - dx <= l) by (split; nra).
    set (u := dy / l) in *. set (v := - dx / l) in *.
    split; apply Rabs_from_bounds; split; nra.
Qed.

Lemma miter_bounded (a1 b1 a0 b0 : R) :
  Rabs a1 <= 1 -> Rabs b1 <= 1 -> Rabs a0 <= 1 -> Rabs b0 <= 1 ->
  Rabs ((a1 + a0) * (1 - 1 / 2 * (a1 * a0 + b1 * b0 + 0 * 0))) <= 4.
Proof.
  intros Ha1 Hb1 Ha0 Hb0.
  apply Rabs_bounds in Ha1. apply Rabs_bounds in Hb1.
  apply Rabs_bounds in Ha0. apply Rabs_bounds in Hb0.
  set (s := 1 - 1 / 2 * (a1 * a0 + b1 * b0 + 0 * 0)).
  assert (Hs : 0 <= s <= 2) by (unfold s; split; nra).
  apply Rabs_from_bounds. split; nra.
Qed.

(** Every point is offset along a vector of the plane [z = 0] whose two
    components are at most 4 in magnitude. *)
Lemma offsetDir_bounded (pts : list (R * R)) (k : nat) :
  (k < length pts)%nat ->
  exists a b : R,
    offsetDir (flatten pts) k = vecR a b 0 /\ Rabs a <= 4 /\ Rabs b <= 4.
Proof.
  intros Hk. unfold offsetDir. rewrite length_flatten.
  assert (Hseg : forall i, (i + 1 < length pts)%nat ->
            exists a b, segmentDir (flatten pts) i = vecR a b 0 /\
                        Rabs a <= 1 /\ Rabs b <= 1).
  { intros i Hi. rewrite segmentDir_flatten by exact Hi.
    eexists _, _. split; [reflexivity |]. apply segmentDirR_bounded. }
  destruct (Nat.ltb_spec (2 * (k + 1)) (2 * length pts)) as [Hlt | Hge].
  - destruct k as [| j]; cbn [averagedDir].
    + destruct (Hseg 0%nat ltac:(lia)) as (a & b & -> & Ha & Hb).
      exists a, b. repeat split; [lra | lra].
    + destruct (Hseg (S j) ltac:(lia)) as (a1 & b1 & -> & Ha1 & Hb1).
      destruct (Hseg j ltac:(lia)) as (a0 & b0 & -> & Ha0 & Hb0).
      rewrite add3_vecR, dot_vecR. cbn [sub mul lift2].
      rewrite multiplyScalar_vecR.
      eexists _, _. split; [apply vecR_ext; [reflexivity | reflexivity | lra] |].
      split; [now apply miter_bounded |].
      replace (a1 * a0 + b1 * b0 + 0 * 0) with (b1 * b0 + a1 * a0 + 0 * 0)
        by ring.
      now apply miter_bounded.
  - destruct k as [| j]; cbn [prevDirAt].
    + exists 0, 0. rewrite Rabs_R0. repeat split; lra.
    + destruct (Hseg j ltac:(lia)) as (a & b & -> & Ha & Hb).
      exists a, b. repeat split; [lra | lra].
Qed.

End OffsetBounds.

(** ** The narrowed vertices of a stroke *)

Section NarrowedStroke.

Variable f : R -> R.

Local Open Scope R_scope.

(** The six numbers of the pair of point [k], read from the stroke. *)
Lemma get_stroke (pts : list (R * R)) (w : R) (k j : nat) (a b c : R) :
  (k < length pts)%nat -> (j < 6)%nat ->
  offsetDir (flatten pts) k = vecR a b c ->
  get (flat_map (offsetPair (flatten pts) (Num w)) (seq 0 (length pts)))
      (6 * k + j) =
  get [Num (a * - w + (nthPoint pts k).1); Num (b * - w + (nthPoint pts k).2);
       Num (c * - w + 0);
       Num (a * w + (nthPoint pts k).1); Num (b * w + (nthPoint pts k).2);
       Num (c * w + 0)] j.
Proof.
  intros Hk Hj Hd. unfold get.
  now rewrite lookup_stroke, (offsetPair_real pts w k a b c) by assumption.
Qed.

(** The same six numbers behind [before], after the conversion of the
    vertex buffer to a [Float32Array]. *)
Lemma get_narrowed_stroke (pts : list (R * R)) (w : R)
    (before after : list number) (m k j : nat) (a b c : R) :
  length before = (6 * m)%nat ->
  (k < length pts)%nat -> (j < 6)%nat ->
  offsetDir (flatten pts) k = vecR a b c ->
  get (toFloat32Array f
         (before ++
          flat_map (offsetPair (flatten pts) (Num w)) (seq 0 (length pts)) ++
          after))
      (6 * (m + k) + j) =
  narrow f
    (get [Num (a * - w + (nthPoint pts k).1);
          Num (b * - w + (nthPoint pts k).2);
          Num (c * - w + 0);
          Num (a * w + (nthPoint pts k).1); Num (b * w + (nthPoint pts k).2);
          Num (c * w + 0)] j).
Proof.
  intros Hb Hk Hj Hd. rewrite get_toFloat32Array. f_equal.
  rewrite <- (get_stroke pts w k j a b c Hk Hj Hd). unfold get.
  replace (6 * (m + k) + j)%nat with (length before + (6 * k + j))%nat by lia.
  rewrite lookup_middle by (rewrite length_stroke; lia). reflexivity.
Qed.

(** The point read back by [reconstructLine] from the narrowed pair of point
    [k] of a stroke that lies behind [m] vertex pairs. *)
Lemma point_narrowed_stroke (pts : list (R * R)) (w : R)
    (before after : list number) (m k : nat) :
  roundsToNearest32 f ->
  length before = (6 * m)%nat ->
  (k < length pts)%nat ->
  inRange32 w (nthPoint pts k) ->
  let out :=
    reconstructLine32 f
      (toFloat32Array f
         (before ++
          flat_map (offsetPair (flatten pts) (Num w)) (seq 0 (length pts)) ++
          after)) m in
  exists ox oy : R,
    out !! (3 * (m + k))%nat = Some (Num ox) /\
    out !! (3 * (m + k) + 1)%nat = Some (Num oy) /\
    out !! (3 * (m + k) + 2)%nat = Some (Num 0) /\
    Rabs (ox - (nthPoint pts k).1) <= pointTolerance32 w (nthPoint pts k).1 /\
    Rabs (oy - (nthPoint pts k).2) <= pointTolerance32 w (nthPoint pts k).2.
Proof.
  intros Hf Hb Hk [Hrx Hry] out.
  destruct (offsetDir_bounded pts k Hk) as (a & b & Hd & Ha & Hb4).
  set (px := (nthPoint pts k).1) in *. set (py := (nthPoint pts k).2) in *.
  set (v32 := toFloat32Array f _) in out.
  assert (Hlen : (6 * m + 6 * length pts <= length v32)%nat).
  { unfold v32. rewrite length_toFloat32Array, !length_app, length_stroke.
    lia. }
  assert (Hhalf : (3 * m + 3 * length pts <= length v32 / 2)%nat).
  { apply Nat.div_le_lower_bound; lia. }
  assert (Hslot : forall c, (c < 3)%nat ->
            out !! (3 * (m + k) + c)%nat =
            Some (narrow f (midpoint v32 (m + k) c))).
  { intros c Hc. unfold out.
    rewrite lookup_reconstructLine32 by (try apply Hf; lia).
    destruct (Nat.ltb_spec (3 * (m + k) + c) (3 * m)); [lia |].
    replace ((3 * (m + k) + c) / 3)%nat with (m + k)%nat
      by (apply (Nat.div_unique _ 3 _ c); lia).
    replace ((3 * (m + k) + c) mod 3)%nat with c
      by (apply (Nat.mod_unique _ 3 (m + k) c); lia).
    reflexivity. }
  assert (Hmid : forall c, (c < 3)%nat ->
            midpoint v32 (m + k) c =
            add (narrow f
                   (get [Num (a * - w + px); Num (b * - w + py);
                         Num (0 * - w + 0);
                         Num (a * w + px); Num (b * w + py);
                         Num (0 * w + 0)] c))
                (mul (sub (narrow f
                             (get [Num (a * - w + px); Num (b * - w + py);
                                   Num (0 * - w + 0);
                                   Num (a * w + px); Num (b * w + py);
                                   Num (0 * w + 0)] (3 + c)))
                          (narrow f
                             (get [Num (a * - w + px); Num (b * - w + py);
                                   Num (0 * - w + 0);
                                   Num (a * w + px); Num (b * w + py);
                                   Num (0 * w + 0)] c)))
                     (Num (1 / 2)))).
  { intros c Hc. unfold midpoint, v32.
    replace (6 * (m + k) + 3 + c)%nat with (6 * (m + k) + (3 + c))%nat by lia.
    now rewrite !(get_narrowed_stroke pts w before after m k _ a b 0)
      by (assumption || lia). }
  pose proof (Rabs_pos w) as Hw0.
  assert (Hta : Rabs (a * w) <= 4 * Rabs w).
  { rewrite Rabs_mult. apply Rmult_le_compat_r; lra. }
  assert (Htb : Rabs (b * w) <= 4 * Rabs w).
  { rewrite Rabs_mult. apply Rmult_le_compat_r; lra. }
  assert (Hp22 : 0 < / 2 ^ 22) by (apply Rinv_0_lt_compat, pow_lt; lra).
  eexists _, _.
  split; [| split; [| split; [| split]]].
  - replace (3 * (m + k))%nat with (3 * (m + k) + 0)%nat by lia.
    rewrite Hslot, Hmid by lia. reflexivity.
  - rewrite Hslot, Hmid by lia. reflexivity.
  - rewrite Hslot, Hmid by lia.
    cbn [get lookup list_lookup default from_option Datatypes.id Nat.add
         narrow add sub mul lift2].
    replace (0 * - w + 0) with 0 by lra. replace (0 * w + 0) with 0 by lra.
    destruct Hf as [H0 _]. rewrite !H0.
    replace (0 + (0 - 0) * (1 / 2)) with 0 by lra. now rewrite H0.
  - pose proof (narrowed_midpoint_error f px (a * w) Hf ltac:(lra)) as E.
    replace (px - a * w) with (a * - w + px) in E by lra.
    replace (px + a * w) with (a * w + px) in E by lra.
    unfold pointTolerance32.
    eapply Rle_trans; [exact E |].
    unfold Rdiv. apply Rplus_le_compat_r, Rmult_le_compat_r; lra.
  - pose proof (narrowed_midpoint_error f py (b * w) Hf ltac:(lra)) as E.
    replace (py - b * w) with (b * - w + py) in E by lra.
    replace (py + b * w) with (b * w + py) in E by lra.
    unfold pointTolerance32.
    eapply Rle_trans; [exact E |].
    unfold Rdiv. apply Rplus_le_compat_r, Rmult_le_compat_r; lra.
Qed.

(** The width read back by [reconstructLineWidth] from the narrowed pair of
    point [k]. *)
Lemma width_narrowed_stroke (pts : list (R * R)) (w : R)
    (before after : list number) (m k : nat) (a b : R) :
  roundsToNearest32 f -> 0 <= w ->
  length before = (6 * m)%nat ->
  (k < length pts)%nat ->
  offsetDir (flatten pts) k = vecR a b 0 ->
  Rabs a <= 4 -> Rabs b <= 4 ->
  inRange32 w (nthPoint pts k) ->
  exists r : R,
    reconstructLineWidth
      (toFloat32Array f
         (before ++
          flat_map (offsetPair (flatten pts) (Num w)) (seq 0 (length pts)) ++
          after))
      (3 * (m + k)) = Num r /\
    Rabs (r - w * R_sqrt.sqrt (a * a + b * b + 0 * 0)) <=
    widthTolerance32 w (nthPoint pts k).
Proof.
  intros Hf Hw Hb Hk Hd Ha Hb4 Hr.
  pose proof (narrowed_width_error f (nthPoint pts k).1 (nthPoint pts k).2
                a b w Hf Hw Ha Hb4) as E.
  cbv zeta in E.
  assert (Hr' : inRange32 w ((nthPoint pts k).1, (nthPoint pts k).2))
    by (now destruct (nthPoint pts k)).
  specialize (E Hr').
  replace ((nthPoint pts k).1, (nthPoint pts k).2) with (nthPoint pts k) in E
    by (now destruct (nthPoint pts k)).
  eexists. split; [| exact E].
  unfold reconstructLineWidth.
  replace (3 * (m + k) * 2 + 3 + 1)%nat with (6 * (m + k) + 4)%nat by lia.
  replace (3 * (m + k) * 2 + 3 + 2)%nat with (6 * (m + k) + 5)%nat by lia.
  replace (3 * (m + k) * 2 + 3)%nat with (6 * (m + k) + 3)%nat by lia.
  replace (3 * (m + k) * 2 + 1)%nat with (6 * (m + k) + 1)%nat by lia.
  replace (3 * (m + k) * 2 + 2)%nat with (6 * (m + k) + 2)%nat by lia.
  replace (3 * (m + k) * 2)%nat with (6 * (m + k) + 0)%nat by lia.
  rewrite !(get_narrowed_stroke pts w before after m k _ a b 0)
    by (assumption || lia).
  cbn [get lookup list_lookup default from_option Datatypes.id
       narrow add sub mul lift2].
  replace (0 * - w + 0) with 0 by lra. replace (0 * w + 0) with 0 by lra.
  destruct Hf as [H0 _]. rewrite !H0.
  replace ((0 - 0) * (0 - 0)) with (0 * 0) by lra.
  match goal with
  | |- context [Num (?X * ?X + ?Y * ?Y + 0 * 0)] =>
      rewrite (sqrt_Num (X * X + Y * Y + 0 * 0))
        by (pose proof (Rle_0_sqr X); pose proof (Rle_0_sqr Y);
            unfold Rsqr in *; lra)
  end.
  reflexivity.
Qed.

End NarrowedStroke.

(** ** A concrete narrowing *)

Section Tie.

Local Open Scope R_scope.

Lemma froundTie_tie : froundTie 16777217 = 16777216.
Proof. unfold froundTie. destruct (Req_dec_T 16777217 16777217); lra. Qed.

Lemma froundTie_other (y : R) : y <> 16777217 -> froundTie y = y.
Proof.
  intros Hy. unfold froundTie. destruct (Req_dec_T y 16777217); [lra | easy].
Qed.

(** [froundTie] moves 16777217 by half a unit in the last place and nothing
    else, so it is within the error bound of the narrowing. *)
Lemma roundsToNearest32_froundTie : roundsToNearest32 froundTie.
Proof.
  assert (Hp150 : 0 < / 2 ^ 150) by (apply Rinv_0_lt_compat, pow_lt; lra).
  assert (Hp24 : 0 < / 2 ^ 24) by (apply Rinv_0_lt_compat, pow_lt; lra).
  split; [apply froundTie_other; lra |].
  intros y _. unfold froundTie. destruct (Req_dec_T y 16777217) as [-> | Hy].
  - rewrite (Rabs_left (16777216 - 16777217)), (Rabs_pos_eq 16777217) by lra.
    assert (E : 2 ^ 24 = 16777216) by (simpl; lra).
    rewrite E. lra.
  - replace (y - y) with 0 by lra. rewrite Rabs_R0.
    pose proof (Rabs_pos y). unfold Rdiv. nra.
Qed.

Lemma horizontal_offsetDir (x0 x1 y0 : R) (i : nat) :
  x0 < x1 -> (i < 2)%nat ->
  offsetDir (flatten [(x0, y0); (x1, y0)]) i = vecR 0 (-1) 0.
Proof.
  intros Hx Hi.
  assert (Hdir : segmentDirR (x0, y0) (x1, y0) = (0, -1)).
  { unfold segmentDirR. cbn [fst snd].
    rewrite (lengthOr1_eq (x1 - x0) (y0 - y0) 0 (x1 - x0)) by (lra || nra).
    f_equal; field; lra. }
  destruct i as [| [| i]]; [| | lia].
  - rewrite offsetDir_first by (simpl; lia).
    change (nthPoint _ 0) with (x0, y0). change (nthPoint _ 1) with (x1, y0).
    now rewrite Hdir.
  - pose proof (offsetDir_last [(x0, y0); (x1, y0)] ltac:(simpl; lia)) as H.
    cbn [length Nat.sub] in H. rewrite H.
    change (nthPoint _ 0) with (x0, y0). change (nthPoint _ 1) with (x1, y0).
    now rewrite Hdir.
Qed.

Lemma tie_vertices :
  vertices (triangulateLine (flatten tiePoints) (Num 1) emptyBuffers
                            false false) =
  [Num 16777217; Num 1; Num 0; Num 16777217; Num (-1); Num 0;
   Num 16777218; Num 1; Num 0; Num 16777218; Num (-1); Num 0].
Proof.
  unfold tiePoints. rewrite stroke_vertices_flatten by (simpl; lia).
  cbn [length seq flat_map emptyBuffers vertices app].
  rewrite !(offsetPair_real _ 1 _ 0 (-1) 0)
    by first [apply horizontal_offsetDir; [lra | lia] | cbn [length]; lia].
  change (nthPoint _ 0) with (16777217, 0). change (nthPoint _ 1) with (16777218, 0).
  cbn [app fst snd]. repeat (f_equal; try lra).
Qed.

Lemma tie_narrowed :
  reconstructLine32 froundTie
    (toFloat32Array froundTie
       (vertices (triangulateLine (flatten tiePoints) (Num 1) emptyBuffers
                                  false false))) 0 =
  [Num 16777216; Num 0; Num 0; Num 16777218; Num 0; Num 0].
Proof.
  rewrite tie_vertices. unfold toFloat32Array.
  cbn [fmap list_fmap narrow].
  rewrite !froundTie_tie. rewrite !froundTie_other by lra.
  unfold reconstructLine32. cbn [length].
  change (12 / 2)%nat with 6%nat.
  cbn [replicate length reconstructLoop32 Nat.ltb Nat.leb Nat.mul Nat.add].
  unfold reconstructStep32, get.
  cbn [Nat.add lookup list_lookup default from_option Datatypes.id
       add sub mul lift2 narrow insert list_insert length Nat.ltb Nat.leb].
  rewrite !froundTie_other by lra.
  repeat (f_equal; try lra).
Qed.

(** Points and widths of moderate size are in range. *)
Lemma inRange32_moderate (w : R) (p : R * R) :
  - 1000000000 <= w <= 1000000000 ->
  - 1000000000 <= p.1 <= 1000000000 ->
  - 1000000000 <= p.2 <= 1000000000 ->
  inRange32 w p.
Proof.
  intros Hw H1 H2.
  assert (H33 : 2 ^ 33 <= 2 ^ 125) by (apply Rle_pow; [lra | lia]).
  assert (E33 : 2 ^ 33 = 8589934592) by (simpl; lra).
  assert (Rabs w <= 1000000000) by (apply Rabs_from_bounds; lra).
  assert (Rabs p.1 <= 1000000000) by (apply Rabs_from_bounds; lra).
  assert (Rabs p.2 <= 1000000000) by (apply Rabs_from_bounds; lra).
  unfold inRange32. lra.
Qed.

Lemma longEnough_east (p q : R * R) : 1 <= q.1 - p.1 -> longEnough p q.
Proof.
  intros H. left.
  assert (H1 : 1 <= 2 ^ 500) by (apply pow_R1_Rle; lra).
  assert (Hi : / 2 ^ 500 <= 1).
  { rewrite <- Rinv_1. apply Rinv_le_contravar; lra. }
  rewrite Rabs_pos_eq by lra. lra.
Qed.

Lemma longEnough_distinct (p q : R * R) : longEnough p q -> p <> q.
Proof.
  intros H ->.
  assert (Hp : 0 < / 2 ^ 500) by (apply Rinv_0_lt_compat, pow_lt; lra).
  unfold longEnough in H.
  replace (q.1 - q.1) with 0 in H by lra.
  replace (q.2 - q.2) with 0 in H by lra.
  rewrite Rabs_R0 in H. lra.
Qed.

Lemma tolerance_small (w c : R) :
  Rabs c + 4 * Rabs w <= 40 -> pointTolerance32 w c <= 1 / 100000.
Proof.
  intros H. unfold pointTolerance32.
  assert (E22 : 2 ^ 22 = 4194304) by (simpl; lra).
  assert (H148 : 2 ^ 22 <= 2 ^ 148) by (apply Rle_pow; [lra | lia]).
  assert (Hi : / 2 ^ 148 <= / 2 ^ 22) by (apply Rinv_le_contravar; lra).
  rewrite E22 in *. lra.
Qed.

End Tie.

(** ** The width read back behind earlier geometry *)

Section WidthBehind.

Local Open Scope R_scope.

Lemma offsetDir_ends (pts : list (R * R)) (k : nat) :
  (2 <= length pts)%nat -> (k < length pts)%nat ->
  segmentsLongEnough pts ->
  exists a b : R,
    offsetDir (flatten pts) k = vecR a b 0 /\ Rabs a <= 4 /\ Rabs b <= 4 /\
    (k = 0%nat \/ k = (length pts - 1)%nat -> a * a + b * b = 1).
Proof.
  intros Hn Hk Hlong.
  destruct (Nat.eq_dec k 0%nat) as [-> | Hk0];
    [| destruct (Nat.eq_dec k (length pts - 1)%nat) as [-> | Hkn]].
  - pose proof (Hlong 0%nat ltac:(lia)) as Hl.
    apply longEnough_distinct in Hl. change (0 + 1)%nat with 1%nat in Hl.
    pose proof (segmentDirR_bounded (nthPoint pts 0) (nthPoint pts 1))
      as [Ha Hb].
    eexists _, _. split; [now apply offsetDir_first |].
    split; [lra |]. split; [lra |]. intros _. now apply segmentDirR_unit.
  - pose proof (Hlong (length pts - 2)%nat ltac:(lia)) as Hl.
    apply longEnough_distinct in Hl.
    replace (length pts - 2 + 1)%nat with (length pts - 1)%nat in Hl by lia.
    pose proof (segmentDirR_bounded (nthPoint pts (length pts - 2))
                                    (nthPoint pts (length pts - 1)))
      as [Ha Hb].
    eexists _, _. split; [now apply offsetDir_last |].
    split; [lra |]. split; [lra |]. intros _. now apply segmentDirR_unit.
  - destruct (offsetDir_bounded pts k Hk) as (a & b & Hd & Ha & Hb).
    exists a, b. split; [exact Hd |]. split; [exact Ha |].
    split; [exact Hb |]. intros [E | E]; contradiction.
Qed.

Lemma width_behind (f : R -> R) (pts : list (R * R)) (w : R)
    (before after : list number) (m k : nat) :
  roundsToNearest32 f -> 0 <= w ->
  length before = (6 * m)%nat ->
  (2 <= length pts)%nat -> (k < length pts)%nat ->
  inRange32 w (nthPoint pts k) ->
  segmentsLongEnough pts ->
  exists a b r : R,
    offsetDir (flatten pts) k = vecR a b 0 /\
    reconstructLineWidth
      (toFloat32Array f
         (before ++
          flat_map (offsetPair (flatten pts) (Num w)) (seq 0 (length pts)) ++
          after))
      (3 * (m + k)) = Num r /\
    Rabs (r - w * R_sqrt.sqrt (a * a + b * b)) <=
      widthTolerance32 w (nthPoint pts k) /\
    (k = 0%nat \/ k = (length pts - 1)%nat ->
     Rabs (r - w) <= widthTolerance32 w (nthPoint pts k)).
Proof.
  intros Hf Hw Hb Hn Hk Hr Hlong.
  destruct (offsetDir_ends pts k Hn Hk Hlong) as (a & b & Hd & Ha & Hb4 & Hu).
  destruct (width_narrowed_stroke f pts w before after m k a b
              Hf Hw Hb Hk Hd Ha Hb4 Hr) as (r & Hwidth & Herr).
  replace (a * a + b * b + 0 * 0) with (a * a + b * b) in Herr by ring.
  exists a, b, r. split; [exact Hd |]. split; [exact Hwidth |].
  split; [exact Herr |].
  intros Hend. rewrite (Hu Hend), sqrt_1, Rmult_1_r in Herr. exact Herr.
Qed.

End WidthBehind.

Lemma inRange32_pair (w : R) (p q : R * R) :
  inRange32 w p -> inRange32 w q -> Forall (inRange32 w) [p; q].
Proof.
  intros Hp Hq. apply List.Forall_cons; [exact Hp |].
  apply List.Forall_cons; [exact Hq | apply List.Forall_nil].
Qed.

(** ** Claims on the round trip through a Float32Array *)

(** C1 as stated fails: the vertices go through a [Float32Array] before the
    points are read back, and 16777217 is not a binary32 number.  For the
    line from (16777217, 0) to (16777218, 0) of width 1 the first point
    comes back with the abscissa 16777216, off by 1 and not by [1e-5]. *)
Lemma reconstructLine_roundtrip_counterexample :
  reconstructLine32 froundTie
    (toFloat32Array froundTie
       (vertices (triangulateLine (flatten tiePoints) (Num 1) emptyBuffers
                                  false false))) 0 =
  [Num 16777216; Num 0; Num 0; Num 16777218; Num 0; Num 0] /\
  flat_map vertexOf tiePoints =
  [Num 16777217; Num 0; Num 0; Num 16777218; Num 0; Num 0] /\
  (1 / 100000 < Rabs (16777216 - 16777217))%R.
Proof.
  split; [exact tie_narrowed |]. split; [reflexivity |].
  rewrite Rabs_left by lra. lra.
Qed.

(** C1, amended.  For a polyline extruded without caps into empty buffers,
    whose vertices are converted to a [Float32Array], [reconstructLine] at
    [startOffset] 0 returns three numbers per point: the abscissa and the
    ordinate of point [k], each within [pointTolerance32] of the original,
    which grows with the magnitude of the coordinate and of the width, and an
    exact zero.  The tolerance is below [1e-5] when the magnitude of the
    coordinate plus four times that of the width is at most 40. *)
Theorem reconstructLine_roundtrip (fround : R -> R) (pts : list (R * R))
    (w : R) :
  roundsToNearest32 fround ->
  Forall (inRange32 w) pts ->
  let v := vertices (triangulateLine (flatten pts) (Num w) emptyBuffers
                                     false false) in
  let out := reconstructLine32 fround (toFloat32Array fround v) 0 in
  length out = (3 * length pts)%nat /\
  forall k : nat, (k < length pts)%nat ->
    let p := nthPoint pts k in
    exists ox oy : R,
      out !! (3 * k)%nat = Some (Num ox) /\
      out !! (3 * k + 1)%nat = Some (Num oy) /\
      out !! (3 * k + 2)%nat = Some (Num 0) /\
      (Rabs (ox - p.1) <= pointTolerance32 w p.1)%R /\
      (Rabs (oy - p.2) <= pointTolerance32 w p.2)%R /\
      ((Rabs p.1 + 4 * Rabs w <= 40)%R ->
       (Rabs (ox - p.1) <= 1 / 100000)%R) /\
      ((Rabs p.2 + 4 * Rabs w <= 40)%R ->
       (Rabs (oy - p.2) <= 1 / 100000)%R).
Proof.
  intros Hf Hrange v out.
  destruct (Nat.eq_dec (length pts) 0) as [Hnil | Hnil].
  { destruct pts; [| discriminate].
    split; [reflexivity | intros k Hk; simpl in Hk; lia]. }
  assert (Hv : v = [] ++ flat_map (offsetPair (flatten pts) (Num w))
                                  (seq 0 (length pts)) ++ []).
  { unfold v. rewrite stroke_vertices_flatten, app_nil_r by lia.
    reflexivity. }
  split.
  - unfold out. rewrite length_reconstructLine32 by apply Hf.
    rewrite length_toFloat32Array, Hv, app_nil_r. cbn [app].
    rewrite length_stroke. symmetry. apply (Nat.div_unique _ 2 _ 0); lia.
  - intros k Hk p.
    assert (Hr : inRange32 w (nthPoint pts k)).
    { exact (Forall_lookup_1 _ _ _ _ Hrange (nthPoint_lookup pts k Hk)). }
    destruct (point_narrowed_stroke fround pts w [] [] 0 k Hf eq_refl Hk Hr)
      as (ox & oy & Hx & Hy & Hz & Ex & Ey).
    rewrite <- Hv in Hx, Hy, Hz. fold out in Hx, Hy, Hz.
    change (0 + k)%nat with k in Hx, Hy, Hz.
    exists ox, oy. fold p in Ex, Ey.
    split; [exact Hx |]. split; [exact Hy |]. split; [exact Hz |].
    split; [exact Ex |]. split; [exact Ey |].
    split; intros Hsmall.
    + eapply Rle_trans; [exact Ex |]. now apply tolerance_small.
    + eapply Rle_trans; [exact Ey |]. now apply tolerance_small.
Qed.

Lemma reconstructLine_roundtrip_witness :
  roundsToNearest32 froundTie /\
  Forall (inRange32 2) [(0, 0); (10, 0)]%R /\
  let out :=
    reconstructLine32 froundTie
      (toFloat32Array froundTie
         (vertices (triangulateLine (flatten [(0, 0); (10, 0)]%R) (Num 2)
                                    emptyBuffers false false))) 0 in
  length out = 6%nat /\
  exists ox oy : R,
    out !! 3%nat = Some (Num ox) /\ out !! 4%nat = Some (Num oy) /\
    out !! 5%nat = Some (Num 0) /\
    (Rabs (ox - 10) <= 1 / 100000)%R /\ (Rabs (oy - 0) <= 1 / 100000)%R.
Proof.
  assert (Hr : Forall (inRange32 2) [(0, 0); (10, 0)]%R).
  { apply inRange32_pair; apply inRange32_moderate; cbn [fst snd]; lra. }
  split; [exact roundsToNearest32_froundTie |]. split; [exact Hr |].
  destruct (reconstructLine_roundtrip froundTie [(0, 0); (10, 0)]%R 2
              roundsToNearest32_froundTie Hr) as [Hlen Hpts].
  split; [exact Hlen |].
  destruct (Hpts 1%nat ltac:(simpl; lia))
    as (ox & oy & Hx & Hy & Hz & _ & _ & Ex & Ey).
  cbn [nthPoint nth fst snd] in Ex, Ey.
  exists ox, oy. split; [exact Hx |]. split; [exact Hy |].
  split; [exact Hz |].
  assert (E10 : Rabs 10 = 10%R) by (apply Rabs_pos_eq; lra).
  assert (E2 : Rabs 2 = 2%R) by (apply Rabs_pos_eq; lra).
  split; [apply Ex | apply Ey]; rewrite ?E10, ?E2, ?Rabs_R0; lra.
Defined.



(** ** Further properties: reconstruction behind caps *)

(** X5.  A line extruded with or without caps behind [m] earlier vertex
    pairs, and converted to a [Float32Array], is recovered by
    [reconstructLine]: with [startOffset] set to [m], plus 5 when the line
    has a start cap, output point [startOffset + k] is point [k] of the
    polyline within [pointTolerance32], with an exact zero as its third
    number. *)
Theorem reconstructLine_behind_caps (fround : R -> R) (pts : list (R * R))
    (w : R) (b : Buffers) (startWithCircle endWithCircle : bool) (m : nat) :
  roundsToNearest32 fround ->
  (1 <= length pts)%nat ->
  length (vertices b) = (6 * m)%nat ->
  Forall (inRange32 w) pts ->
  let v := vertices (triangulateLine (flatten pts) (Num w) b
                                     startWithCircle endWithCircle) in
  let startOffset := (m + if startWithCircle then 5 else 0)%nat in
  let out := reconstructLine32 fround (toFloat32Array fround v) startOffset in
  forall k : nat, (k < length pts)%nat ->
    exists ox oy : R,
      out !! (3 * (startOffset + k))%nat = Some (Num ox) /\
      out !! (3 * (startOffset + k) + 1)%nat = Some (Num oy) /\
      out !! (3 * (startOffset + k) + 2)%nat = Some (Num 0) /\
      (Rabs (ox - (nthPoint pts k).1) <=
       pointTolerance32 w (nthPoint pts k).1)%R /\
      (Rabs (oy - (nthPoint pts k).2) <=
       pointTolerance32 w (nthPoint pts k).2)%R.
Proof.
  intros Hf Hn Hm Hrange v startOffset out k Hk.
  destruct (stroke_split pts (Num w) b startWithCircle endWithCircle Hn)
    as (before & after & Hv & Hb).
  fold v in Hv.
  assert (Hb6 : length before = (6 * startOffset)%nat).
  { rewrite Hb, Hm. unfold startOffset. destruct startWithCircle; lia. }
  assert (Hr : inRange32 w (nthPoint pts k)).
  { exact (Forall_lookup_1 _ _ _ _ Hrange (nthPoint_lookup pts k Hk)). }
  unfold out. rewrite Hv.
  exact (point_narrowed_stroke fround pts w before after startOffset k
           Hf Hb6 Hk Hr).
Qed.

Lemma reconstructLine_behind_caps_witness :
  roundsToNearest32 froundTie /\
  (1 <= length [(4, 0); (14, 0)]%R)%nat /\
  length (vertices emptyBuffers) = (6 * 0)%nat /\
  Forall (inRange32 2) [(4, 0); (14, 0)]%R /\
  exists ox oy : R,
    reconstructLine32 froundTie
      (toFloat32Array froundTie
         (vertices (triangulateLine (flatten [(4, 0); (14, 0)]%R) (Num 2)
                                    emptyBuffers true true)))
      5 !! (3 * (5 + 1))%nat = Some (Num ox) /\
    reconstructLine32 froundTie
      (toFloat32Array froundTie
         (vertices (triangulateLine (flatten [(4, 0); (14, 0)]%R) (Num 2)
                                    emptyBuffers true true)))
      5 !! (3 * (5 + 1) + 1)%nat = Some (Num oy) /\
    reconstructLine32 froundTie
      (toFloat32Array froundTie
         (vertices (triangulateLine (flatten [(4, 0); (14, 0)]%R) (Num 2)
                                    emptyBuffers true true)))
      5 !! (3 * (5 + 1) + 2)%nat = Some (Num 0) /\
    (Rabs (ox - 14) <= pointTolerance32 2 14)%R /\
    (Rabs (oy - 0) <= pointTolerance32 2 0)%R.
Proof.
  assert (Hr : Forall (inRange32 2) [(4, 0); (14, 0)]%R).
  { apply inRange32_pair; apply inRange32_moderate; cbn [fst snd]; lra. }
  split; [exact roundsToNearest32_froundTie |].
  split; [simpl; lia |]. split; [reflexivity |]. split; [exact Hr |].
  apply (reconstructLine_behind_caps froundTie [(4, 0); (14, 0)]%R 2
           emptyBuffers true true 0 roundsToNearest32_froundTie
           ltac:(simpl; lia) eq_refl Hr 1%nat).
  simpl; lia.
Defined.

(** X6.  With a width [w >= 0] and segments that are [longEnough], the
    width is recovered within [widthTolerance32] at both ends of a line that
    has caps or earlier geometry before it: at [startIndex = 3 * startOffset]
    and at [3 * (startOffset + N - 1)], where [startOffset] counts the vertex
    pairs before the stroke. *)
Theorem reconstructLineWidth_behind_caps (fround : R -> R)
    (pts : list (R * R)) (w : R) (b : Buffers)
    (startWithCircle endWithCircle : bool) (m : nat) :
  roundsToNearest32 fround ->
  (2 <= length pts)%nat -> (0 <= w)%R ->
  length (vertices b) = (6 * m)%nat ->
  Forall (inRange32 w) pts ->
  segmentsLongEnough pts ->
  let v := vertices (triangulateLine (flatten pts) (Num w) b
                                     startWithCircle endWithCircle) in
  let startOffset := (m + if startWithCircle then 5 else 0)%nat in
  forall k : nat, k = 0%nat \/ k = (length pts - 1)%nat ->
    exists r : R,
      reconstructLineWidth (toFloat32Array fround v)
                           (3 * (startOffset + k)) = Num r /\
      (Rabs (r - w) <= widthTolerance32 w (nthPoint pts k))%R.
Proof.
  intros Hf Hn Hw Hm Hrange Hlong v startOffset k Hend.
  assert (Hk : (k < length pts)%nat) by (destruct Hend; lia).
  destruct (stroke_split pts (Num w) b startWithCircle endWithCircle
              ltac:(lia)) as (before & after & Hv & Hb).
  fold v in Hv.
  assert (Hb6 : length before = (6 * startOffset)%nat).
  { rewrite Hb, Hm. unfold startOffset. destruct startWithCircle; lia. }
  assert (Hr : inRange32 w (nthPoint pts k)).
  { exact (Forall_lookup_1 _ _ _ _ Hrange (nthPoint_lookup pts k Hk)). }
  destruct (width_behind fround pts w before after startOffset k
              Hf Hw Hb6 Hn Hk Hr Hlong) as (a & b' & r & _ & Hwidth & _ & He).
  exists r. rewrite Hv. split; [exact Hwidth | exact (He Hend)].
Qed.

Lemma reconstructLineWidth_behind_caps_witness :
  roundsToNearest32 froundTie /\
  (2 <= length [(4, 0); (14, 0)]%R)%nat /\ (0 <= 2)%R /\
  length (vertices emptyBuffers) = (6 * 0)%nat /\
  Forall (inRange32 2) [(4, 0); (14, 0)]%R /\
  segmentsLongEnough [(4, 0); (14, 0)]%R /\
  exists r : R,
    reconstructLineWidth
      (toFloat32Array froundTie
         (vertices (triangulateLine (flatten [(4, 0); (14, 0)]%R) (Num 2)
                                    emptyBuffers true true)))
      (3 * (5 + 0)) = Num r /\
    (Rabs (r - 2) <= widthTolerance32 2 (4, 0))%R.
Proof.
  assert (Hr : Forall (inRange32 2) [(4, 0); (14, 0)]%R).
  { apply inRange32_pair; apply inRange32_moderate; cbn [fst snd]; lra. }
  assert (Hl : segmentsLongEnough [(4, 0); (14, 0)]%R).
  { intros [| i] Hi; [| simpl in Hi; lia].
    apply longEnough_east. cbn. lra. }
  split; [exact roundsToNearest32_froundTie |].
  split; [simpl; lia |]. split; [lra |]. split; [reflexivity |].
  split; [exact Hr |]. split; [exact Hl |].
  apply (reconstructLineWidth_behind_caps froundTie [(4, 0); (14, 0)]%R 2
           emptyBuffers true true 0 roundsToNearest32_froundTie
           ltac:(simpl; lia) ltac:(lra) eq_refl Hr Hl 0%nat).
  now left.
Defined.

(** ** Further properties: degenerate and straight joins *)

(** X11.  When the first two points of a polyline coincide, the first
    segment has length zero and [normalize] leaves its direction at the zero
    vector, since it divides by [length() || 1]: the two vertices that
    [triangulateLine] emits for the first point are the point itself, for
    every width and with or without caps. *)
Theorem zero_length_segment (pts : list (R * R)) (w : R) (b : Buffers)
    (startWithCircle endWithCircle : bool) :
  (2 <= length pts)%nat ->
  nthPoint pts 0 = nthPoint pts 1 ->
  exists before rest : list number,
    vertices (triangulateLine (flatten pts) (Num w) b
                              startWithCircle endWithCircle) =
    before ++ (vertexOf (nthPoint pts 0) ++ vertexOf (nthPoint pts 0)) ++ rest
    /\
    length before =
      (length (vertices b) + if startWithCircle then 30 else 0)%nat.
Proof.
  intros Hn Heq.
  assert (Hdir : segmentDir (flatten pts) 0 = vecR 0 0 0).
  { rewrite segmentDir_flatten by (simpl; lia).
    change (0 + 1)%nat with 1%nat.
    rewrite <- Heq, segmentDirR_same_point. reflexivity. }
  assert (Hoff : offsetDir (flatten pts) 0 = vecR 0 0 0).
  { unfold offsetDir. rewrite length_flatten.
    destruct (Nat.ltb_spec (2 * (0 + 1)) (2 * length pts)); [| lia].
    exact Hdir. }
  assert (Hpair : offsetPair (flatten pts) (Num w) 0 =
                  vertexOf (nthPoint pts 0) ++ vertexOf (nthPoint pts 0)).
  { rewrite (offsetPair_real pts w 0 0 0 0 ltac:(lia) Hoff).
    unfold vertexOf. cbn [app]. repeat (f_equal; try lra). }
  destruct (stroke_split pts (Num w) b startWithCircle endWithCircle
              ltac:(lia)) as (before & after & Hv & Hb).
  exists before,
         (flat_map (offsetPair (flatten pts) (Num w))
                   (seq 1 (length pts - 1)) ++ after).
  split; [| exact Hb].
  rewrite Hv.
  replace (length pts) with (S (length pts - 1)) at 1 by lia.
  cbn [seq flat_map]. rewrite Hpair, <- !app_assoc. reflexivity.
Qed.

Lemma zero_length_segment_witness :
  (2 <= length [(3, 5); (3, 5); (7, 5)]%R)%nat /\
  nthPoint [(3, 5); (3, 5); (7, 5)]%R 0 = nthPoint [(3, 5); (3, 5); (7, 5)]%R 1 /\
  exists before rest : list number,
    vertices (triangulateLine (flatten [(3, 5); (3, 5); (7, 5)]%R) (Num 2)
                              emptyBuffers false false) =
    before ++ (vertexOf (3, 5)%R ++ vertexOf (3, 5)%R) ++ rest /\
    length before = (length (vertices emptyBuffers) + 0)%nat.
Proof.
  split; [simpl; lia |]. split; [reflexivity |].
  apply (zero_length_segment [(3, 5); (3, 5); (7, 5)]%R 2 emptyBuffers
           false false); [simpl; lia | reflexivity].
Defined.

Lemma straight_join_dir (pts : list (R * R)) (t : R) (j : nat) :
  (S j + 1 < length pts)%nat -> (0 < t)%R ->
  let a := nthPoint pts j in
  let p := nthPoint pts (S j) in
  let q := nthPoint pts (S j + 1) in
  a <> p ->
  (q.1 - p.1 = t * (p.1 - a.1))%R -> (q.2 - p.2 = t * (p.2 - a.2))%R ->
  offsetDir (flatten pts) (S j) =
  vecR (segmentDirR a p).1 (segmentDirR a p).2 0.
Proof.
  intros Hi Ht a p q Hne Hx Hy.
  pose proof (segmentDirR_scale a p q t Ht Hne Hx Hy) as Hsame.
  pose proof (segmentDirR_unit a p Hne) as Hunit.
  assert (Hcur : segmentDir (flatten pts) (S j) =
                 vecR (segmentDirR a p).1 (segmentDirR a p).2 0).
  { rewrite segmentDir_flatten by exact Hi. fold p q. now rewrite Hsame. }
  assert (Hprev : segmentDir (flatten pts) j =
                  vecR (segmentDirR a p).1 (segmentDirR a p).2 0).
  { rewrite segmentDir_flatten by lia.
    now replace (j + 1)%nat with (S j) by lia. }
  unfold offsetDir. rewrite length_flatten.
  destruct (Nat.ltb_spec (2 * (S j + 1)) (2 * length pts)); [| lia].
  cbn [averagedDir]. rewrite Hcur, Hprev.
  rewrite add3_vecR, dot_vecR. cbn [sub mul lift2].
  rewrite multiplyScalar_vecR.
  set (d1 := (segmentDirR a p).1) in *. set (d2 := (segmentDirR a p).2) in *.
  replace (d1 * d1 + d2 * d2 + 0 * 0)%R with 1%R by lra.
  apply vecR_ext; lra.
Qed.

(** X12.  At a join where the next segment continues in the direction of
    the previous one, the miter does not lengthen the offset: with [w >= 0]
    the width that [reconstructLineWidth] reads back at that point from the
    narrowed vertices is [w] within [widthTolerance32]. *)
Theorem straight_join (fround : R -> R) (pts : list (R * R)) (w t : R)
    (j : nat) :
  roundsToNearest32 fround ->
  (S j + 1 < length pts)%nat -> (0 <= w)%R -> (0 < t)%R ->
  Forall (inRange32 w) pts ->
  let a := nthPoint pts j in
  let p := nthPoint pts (S j) in
  let q := nthPoint pts (S j + 1) in
  longEnough a p -> longEnough p q ->
  (q.1 - p.1 = t * (p.1 - a.1))%R -> (q.2 - p.2 = t * (p.2 - a.2))%R ->
  exists r : R,
    reconstructLineWidth
      (toFloat32Array fround
         (vertices (triangulateLine (flatten pts) (Num w) emptyBuffers
                                    false false)))
      (3 * S j) = Num r /\
    (Rabs (r - w) <= widthTolerance32 w p)%R.
Proof.
  intros Hf Hi Hw Ht Hrange a p q Hla Hlq Hx Hy.
  pose proof (longEnough_distinct a p Hla) as Hne.
  pose proof (straight_join_dir pts t j Hi Ht Hne Hx Hy) as Hoff.
  fold a p in Hoff.
  pose proof (segmentDirR_unit a p Hne) as Hunit.
  pose proof (segmentDirR_bounded a p) as [Ha Hb].
  assert (Hk : (S j < length pts)%nat) by lia.
  assert (Hr : inRange32 w (nthPoint pts (S j))).
  { exact (Forall_lookup_1 _ _ _ _ Hrange (nthPoint_lookup pts (S j) Hk)). }
  destruct (width_narrowed_stroke fround pts w [] [] 0 (S j) _ _
              Hf Hw eq_refl Hk Hoff ltac:(lra) ltac:(lra) Hr)
    as (r & Hwidth & Herr).
  exists r. split.
  - rewrite stroke_vertices_flatten by lia.
    cbn [emptyBuffers vertices].
    rewrite app_nil_r in Hwidth. exact Hwidth.
  - fold p in Herr.
    rewrite (width_of_unit w _ _ Hunit) in Herr. exact Herr.
Qed.

Lemma straight_join_witness :
  roundsToNearest32 froundTie /\
  (1 + 1 < length [(0, 0); (1, 0); (3, 0)]%R)%nat /\ (0 <= 2)%R /\ (0 < 2)%R /\
  Forall (inRange32 2) [(0, 0); (1, 0); (3, 0)]%R /\
  longEnough (0, 0)%R (1, 0)%R /\ longEnough (1, 0)%R (3, 0)%R /\
  exists r : R,
    reconstructLineWidth
      (toFloat32Array froundTie
         (vertices (triangulateLine (flatten [(0, 0); (1, 0); (3, 0)]%R)
                                    (Num 2) emptyBuffers false false)))
      (3 * 1) = Num r /\
    (Rabs (r - 2) <= widthTolerance32 2 (1, 0))%R.
Proof.
  assert (Hr : Forall (inRange32 2) [(0, 0); (1, 0); (3, 0)]%R).
  { apply List.Forall_cons; [apply inRange32_moderate; cbn [fst snd]; lra |].
    apply inRange32_pair; apply inRange32_moderate; cbn [fst snd]; lra. }
  assert (H1 : longEnough (0, 0)%R (1, 0)%R)
    by (apply longEnough_east; cbn; lra).
  assert (H2 : longEnough (1, 0)%R (3, 0)%R)
    by (apply longEnough_east; cbn; lra).
  split; [exact roundsToNearest32_froundTie |].
  split; [simpl; lia |]. split; [lra |]. split; [lra |].
  split; [exact Hr |]. split; [exact H1 |]. split; [exact H2 |].
  apply (straight_join froundTie [(0, 0); (1, 0); (3, 0)]%R 2 2 0
           roundsToNearest32_froundTie ltac:(simpl; lia) ltac:(lra)
           ltac:(lra) Hr H1 H2); cbn; lra.
Defined.

(** ** Further properties: the seam between a cap and the stroke *)






